(** * A to-do list widget: the list operations and their persistence

    Shallow embedding of [assets/js/script.js].  The script keeps its task
    list in the page itself: the children of the [taskList] element are the
    tasks, a task's text is the rendered text of the first [span] of its
    item and its completion flag is the presence of the class [completed].
    Every handler that changes the list ends by serialising the whole list to
    [localStorage] under the key [tasks]; [loadTasks] rebuilds the items from
    that value when the page is loaded.

    The file has three parts.  The first embeds the platform the script
    calls ([String.prototype.trim], Numbers, [JSON], the HTML parser behind
    [innerHTML], the list element and [localStorage]) and then the script,
    function by function, in a state monad with exceptions over the page.
    The second names the notions the properties are stated in.  The third
    proves them.

    JavaScript strings are embedded as [string]: sequences of bytes, read as
    the UTF-8 form of the text. *)

From Stdlib Require Import Ascii String ZArith QArith Lia.
From Stdlib Require SpecFloat.
From stdpp Require Import base option list strings pretty gmap.

Close Scope Q_scope.

(** ** Strings *)

Module JsString.

Definition code (c : ascii) : nat := nat_of_ascii c.

Definition snoc (s : string) (c : ascii) : string := s +:+ String c "".

Definition is_digit (c : ascii) : bool := (48 <=? code c) && (code c <=? 57).

Definition is_upper (c : ascii) : bool := (65 <=? code c) && (code c <=? 90).

Definition is_lower (c : ascii) : bool := (97 <=? code c) && (code c <=? 122).

Definition is_alpha (c : ascii) : bool := is_upper c || is_lower c.

Definition to_lower (c : ascii) : ascii :=
  if is_upper c then ascii_of_nat (code c + 32) else c.

(** The one-byte members of ECMAScript's WhiteSpace and LineTerminator:
    TAB, LF, VT, FF, CR and SPACE. *)
Definition is_ws1 (c : ascii) : bool :=
  match c with
  | "009" | "010" | "011" | "012" | "013" | " " => true
  | _ => false
  end%char.

(** [String.prototype.trim], front half: drop leading white space and line
    terminators.  The members above U+007F are matched in their UTF-8 form:
    U+00A0, U+1680, U+2000..U+200A, U+2028, U+2029, U+202F, U+205F, U+3000
    and U+FEFF. *)
Fixpoint trimStart (s : string) : string :=
  match s with
  | "" => ""
  | String c r =>
      if is_ws1 c then trimStart r
      else match c, r with
      | "194"%char, String "160"%char r' => trimStart r'
      | "225"%char, String "154"%char (String "128"%char r') => trimStart r'
      | "226"%char, String "128"%char (String d r') =>
          if (128 <=? code d) &&
             ((code d <=? 138) || (code d =? 168) || (code d =? 169) || (code d =? 175))
          then trimStart r' else s
      | "226"%char, String "129"%char (String "159"%char r') => trimStart r'
      | "227"%char, String "128"%char (String "128"%char r') => trimStart r'
      | "239"%char, String "187"%char (String "191"%char r') => trimStart r'
      | _, _ => s
      end
  end.

Fixpoint rev_onto (s acc : string) : string :=
  match s with
  | "" => acc
  | String c r => rev_onto r (String c acc)
  end.

Definition rev (s : string) : string := rev_onto s "".

(** The same scan over the reversed string: the multi-byte members appear
    with their bytes in reverse order. *)
Fixpoint trimStart_rev (s : string) : string :=
  match s with
  | "" => ""
  | String c r =>
      if is_ws1 c then trimStart_rev r
      else match c, r with
      | "160"%char, String "194"%char r' => trimStart_rev r'
      | "128"%char, String "154"%char (String "225"%char r') => trimStart_rev r'
      | d, String "128"%char (String "226"%char r') =>
          if (128 <=? code d) &&
             ((code d <=? 138) || (code d =? 168) || (code d =? 169) || (code d =? 175))
          then trimStart_rev r' else s
      | "159"%char, String "129"%char (String "226"%char r') => trimStart_rev r'
      | "128"%char, String "128"%char (String "227"%char r') => trimStart_rev r'
      | "191"%char, String "187"%char (String "239"%char r') => trimStart_rev r'
      | _, _ => s
      end
  end.

Definition trimEnd (s : string) : string := rev (trimStart_rev (rev s)).

Definition trim (s : string) : string := trimEnd (trimStart s).

Fixpoint join (sep : string) (l : list string) : string :=
  match l with
  | [] => ""
  | [x] => x
  | x :: r => x +:+ sep +:+ join sep r
  end.

End JsString.

(** ** Numbers

    A Number is a binary64 value of IEEE 754.  The values and their
    arithmetic (round to nearest, ties to even) are those of [SpecFloat] in
    the Standard Library: a finite non-zero value is [(-1)^s * m * 2^e] with
    [m] of at most 53 bits. *)

Module JsNumber.
Import JsString.

Definition number : Type := SpecFloat.spec_float.

Definition prec : Z := 53.
Definition emax : Z := 1024.

Definition add (x y : number) : number := SpecFloat.SFadd prec emax x y.

Definition div (x y : number) : number := SpecFloat.SFdiv prec emax x y.

(** [x < y]; [false] when either is a NaN. *)
Definition lt (x y : number) : bool := SpecFloat.SFltb x y.

(** The same value: as [===] on numbers that are not NaN. *)
Definition same (x y : number) : bool := SpecFloat.SFeqb x y.

Definition of_Z (z : Z) : number := SpecFloat.binary_normalize prec emax z 0 false.

Definition is_finite (x : number) : bool :=
  match x with
  | SpecFloat.S754_zero _ | SpecFloat.S754_finite _ _ _ => true
  | _ => false
  end.

(** ToBoolean of a Number is false on [+0], [-0] and NaN. *)
Definition is_zero_or_nan (x : number) : bool :=
  match x with
  | SpecFloat.S754_zero _ | SpecFloat.S754_nan => true
  | _ => false
  end.

(** The Number value for [m * 10^e]: the quotient of two integers is rounded
    once. *)
Definition of_decimal (neg : bool) (m : Z) (e : Z) : number :=
  match m with
  | Zpos p =>
      if (0 <=? e)%Z then SpecFloat.binary_round prec emax neg (p * Z.to_pos (10 ^ e)) 0
      else SpecFloat.SFdiv prec emax (SpecFloat.S754_finite neg p 0)
             (SpecFloat.S754_finite false (Z.to_pos (10 ^ (- e))) 0)
  | _ => SpecFloat.S754_zero neg
  end.

(** The digits at the front of [s], read after the digits that gave [acc]:
    the value, the number of digits read and the rest of [s]. *)
Fixpoint read_digits (s : string) (acc : Z) (n : Z) : Z * Z * string :=
  match s with
  | String c r =>
      if is_digit c then read_digits r (10 * acc + Z.of_nat (code c - 48)) (n + 1)
      else (acc, n, s)
  | "" => (acc, n, "")
  end.

Definition read_exponent (s : string) : Z :=
  match s with
  | String _ (String "-" r) => - (read_digits r 0 0).1.1
  | String _ (String "+" r) => (read_digits r 0 0).1.1
  | String _ r => (read_digits r 0 0).1.1
  | "" => 0
  end%Z.

(** The Number value of a decimal literal in the grammar of JSON: an
    optional minus, the integer digits, an optional fraction, an optional
    exponent. *)
Definition of_literal (lit : string) : number :=
  let '(neg, s1) := match lit with String "-" r => (true, r) | _ => (false, lit) end in
  let '(int, _, s2) := read_digits s1 0 0 in
  let '(m, fd, s3) := match s2 with
                      | String "." r => read_digits r int 0
                      | _ => (int, 0%Z, s2)
                      end in
  of_decimal neg m (read_exponent s3 - fd).

(** *** Number::toString *)

(** [m * 2^e] as the fraction [a / b]. *)
Definition fraction (m : positive) (e : Z) : Z * Z :=
  if (0 <=? e)%Z then (Zpos m * 2 ^ e, 1)%Z else (Zpos m, 2 ^ (- e))%Z.

(** [(a / b) * 10^t] as a fraction. *)
Definition scale (ab : Z * Z) (t : Z) : Z * Z :=
  if (0 <=? t)%Z then (ab.1 * 10 ^ t, ab.2)%Z else (ab.1, ab.2 * 10 ^ (- t))%Z.

(** The least [n] from [n] on with [a / b < 10^n]. *)
Fixpoint magnitude (fuel : nat) (ab : Z * Z) (n : Z) : Z :=
  match fuel with
  | 0 => n
  | S fuel' =>
      let '(a, b) := scale ab (- n) in
      if (a <? b)%Z then n else magnitude fuel' ab (n + 1)
  end.

(** The place of the decimal point of [x = m * 2^e]: the [n] with
    [10^(n-1) <= x < 10^n], searched from an estimate that lies below it
    ([x >= 2^q] for [q] one less than the number of bits of [m] plus [e], and
    [30103 / 100000] exceeds the logarithm of 2 by less than [10^-8]). *)
Definition point (m : positive) (e : Z) : Z :=
  let q := (Z.log2 (Zpos m) + e)%Z in
  magnitude 8 (fraction m e) ((q * 30103) / 100000 - 1)%Z.

(** The decimal with [k] digits that stands for [x], if there is one: [s]
    and [n] with [10^(k-1) <= s < 10^k] such that [s * 10^(n-k)] has the
    Number value [x], and of the two of them around [x] the closer one (the
    even one when they are as close). *)
Definition with_digits (x : number) (ab : Z * Z) (n0 k : Z) : option (Z * Z) :=
  let '(a, b) := scale ab (k - n0) in
  let low := (a / b)%Z in
  let high := (low + 1)%Z in
  let ok s := same (of_decimal false s (n0 - k)) x in
  let take_low := Some (low, n0) in
  let take_high := Some (if (high =? 10 ^ k)%Z then (10 ^ (k - 1), n0 + 1)%Z else (high, n0)) in
  match ok low, ok high with
  | true, true =>
      match (2 * (a - low * b) ?= b)%Z with
      | Lt => take_low
      | Gt => take_high
      | Eq => if Z.even low then take_low else take_high
      end
  | true, false => take_low
  | false, true => take_high
  | false, false => None
  end.

(** The shortest such decimal: its digits [s], their number [k] and the
    place [n] of the decimal point. *)
Fixpoint shortest (fuel : nat) (x : number) (ab : Z * Z) (n0 k : Z) : Z * Z * Z :=
  match fuel with
  | 0 => (0, k, n0)%Z
  | S fuel' =>
      match with_digits x ab n0 k with
      | Some (s, n) => (s, k, n)
      | None => shortest fuel' x ab n0 (k + 1)
      end
  end.

Definition zeros (n : Z) : string := String.concat "" (replicate (Z.to_nat n) "0").

Definition exponent_part (n : Z) : string :=
  let e := (n - 1)%Z in
  "e" +:+ (if (e <? 0)%Z then "-" else "+") +:+ pretty (Z.abs e).

Definition format (s k n : Z) : string :=
  let digits := pretty s in
  if (k <=? n)%Z && (n <=? 21)%Z then digits +:+ zeros (n - k)
  else if (0 <? n)%Z && (n <=? 21)%Z then
    substring 0 (Z.to_nat n) digits +:+ "." +:+ substring (Z.to_nat n) (Z.to_nat (k - n)) digits
  else if (-6 <? n)%Z && (n <=? 0)%Z then "0." +:+ zeros (- n) +:+ digits
  else if (k =? 1)%Z then digits +:+ exponent_part n
  else substring 0 1 digits +:+ "." +:+ substring 1 (Z.to_nat (k - 1)) digits
       +:+ exponent_part n.

Definition toString (x : number) : string :=
  match x with
  | SpecFloat.S754_nan => "NaN"
  | SpecFloat.S754_zero _ => "0"
  | SpecFloat.S754_infinity neg => if neg then "-Infinity" else "Infinity"
  | SpecFloat.S754_finite neg m e =>
      let '(s, k, n) :=
        shortest 17 (SpecFloat.S754_finite false m e) (fraction m e) (point m e) 1 in
      (if neg then "-" else "") +:+ format s k n
  end.

End JsNumber.

(** ** JSON

    [JSON.stringify] and [JSON.parse].  The reader is the grammar of ECMA-404
    run as two machines: a lexer that consumes the text one character at a
    time and a push-down recogniser over its tokens.  Both are total; a
    result of [None] is the [SyntaxError] of [JSON.parse]. *)

Module Json.
Import JsString JsNumber.

(** A number is the Number value of its literal. *)
#[warnings="-register-all"]
Inductive json :=
| JNull
| JBool (b : bool)
| JNumber (x : number)
| JString (s : string)
| JArray (items : list json)
| JObject (members : list (string * json)).

Definition dquote : ascii := "034"%char.
Definition backslash : ascii := "092"%char.

Definition hex_digit (n : nat) : ascii :=
  if n <? 10 then ascii_of_nat (48 + n) else ascii_of_nat (87 + n).

(** QuoteJSONString, one character: the quote, the backslash and the control
    characters are escaped, everything else is copied. *)
Definition quote_char (c : ascii) : string :=
  match c with
  | "034"%char => String backslash (String dquote "")
  | "092"%char => String backslash (String backslash "")
  | "008"%char => String backslash "b"
  | "009"%char => String backslash "t"
  | "010"%char => String backslash "n"
  | "012"%char => String backslash "f"
  | "013"%char => String backslash "r"
  | _ =>
      if code c <? 32
      then String backslash
             (String "u" (String "0" (String "0"
                (String (hex_digit (code c / 16)) (String (hex_digit (code c mod 16)) "")))))
      else String c ""
  end.

Fixpoint quote_body (s : string) : string :=
  match s with
  | "" => ""
  | String c r => quote_char c +:+ quote_body r
  end.

Definition quote (s : string) : string :=
  String dquote (quote_body s +:+ String dquote "").

Fixpoint JSON_stringify (j : json) : string :=
  match j with
  | JNull => "null"
  | JBool true => "true"
  | JBool false => "false"
  | JNumber x => if is_finite x then toString x else "null"
  | JString s => quote s
  | JArray items => "[" +:+ join "," (map JSON_stringify items) +:+ "]"
  | JObject members =>
      "{" +:+ join "," (map (fun kv => quote (fst kv) +:+ ":" +:+ JSON_stringify (snd kv)) members)
          +:+ "}"
  end.

(** *** Lexer *)

Inductive token :=
| TLBracket | TRBracket | TLBrace | TRBrace | TComma | TColon
| TNull | TTrue | TFalse
| TNum (lit : string)
| TStr (s : string).

Definition hex_value (c : ascii) : option nat :=
  let n := code c in
  if is_digit c then Some (n - 48)
  else if (65 <=? n) && (n <=? 70) then Some (n - 55)
  else if (97 <=? n) && (n <=? 102) then Some (n - 87)
  else None.

(** The bytes of one UTF-16 code unit given by a [\uXXXX] escape. *)
Definition utf8_of_unit (n : nat) : string :=
  if n <? 128 then String (ascii_of_nat n) ""
  else if n <? 2048 then
    String (ascii_of_nat (192 + n / 64)) (String (ascii_of_nat (128 + n mod 64)) "")
  else
    String (ascii_of_nat (224 + n / 4096))
      (String (ascii_of_nat (128 + (n / 64) mod 64))
         (String (ascii_of_nat (128 + n mod 64)) "")).

Fixpoint skip_digits (s : string) : string :=
  match s with
  | String c r => if is_digit c then skip_digits r else s
  | "" => ""
  end.

Definition exponent_ok (s : string) : bool :=
  match s with
  | "" => true
  | String e r =>
      if (e =? "e")%char || (e =? "E")%char then
        let r' := match r with
                  | String sg r1 => if (sg =? "+")%char || (sg =? "-")%char then r1 else r
                  | "" => r
                  end in
        match r' with
        | String d r2 => is_digit d && bool_decide (skip_digits r2 = "")
        | "" => false
        end
      else false
  end.

Definition fraction_ok (s : string) : bool :=
  match s with
  | String "." (String d r) => is_digit d && exponent_ok (skip_digits r)
  | String "." "" => false
  | _ => exponent_ok s
  end.

(** The number grammar: an optional minus, [0] or a digit string without a
    leading zero, an optional fraction, an optional exponent. *)
Definition valid_number (s : string) : bool :=
  let s1 := match s with String "-" r => r | _ => s end in
  match s1 with
  | String "0" r => fraction_ok r
  | String d r => is_digit d && fraction_ok (skip_digits r)
  | "" => false
  end.

Inductive lstate :=
| LIdle
| LStr (buf : string)
| LEsc (buf : string)
| LUni (buf : string) (n : nat) (seen : nat)
| LNum (buf : string)
| LWord (buf : string)
| LFail.

Definition lexer : Type := lstate * list token.

Definition is_number_char (c : ascii) : bool :=
  is_digit c || (c =? "-")%char || (c =? "+")%char || (c =? ".")%char
  || (c =? "e")%char || (c =? "E")%char.

Definition lex_idle (c : ascii) (out : list token) : lexer :=
  match c with
  | "["%char => (LIdle, TLBracket :: out)
  | "]"%char => (LIdle, TRBracket :: out)
  | "{"%char => (LIdle, TLBrace :: out)
  | "}"%char => (LIdle, TRBrace :: out)
  | ","%char => (LIdle, TComma :: out)
  | ":"%char => (LIdle, TColon :: out)
  | (" " | "009" | "010" | "013")%char => (LIdle, out)
  | "034"%char => (LStr "", out)
  | _ =>
      if is_digit c || (c =? "-")%char then (LNum (String c ""), out)
      else if is_lower c then (LWord (String c ""), out)
      else (LFail, out)
  end.

Definition word_token (w : string) : option token :=
  if bool_decide (w = "null") then Some TNull
  else if bool_decide (w = "true") then Some TTrue
  else if bool_decide (w = "false") then Some TFalse
  else None.

Definition lstep (l : lexer) (c : ascii) : lexer :=
  let '(st, out) := l in
  match st with
  | LIdle => lex_idle c out
  | LStr buf =>
      if (c =? dquote)%char then (LIdle, TStr buf :: out)
      else if (c =? backslash)%char then (LEsc buf, out)
      else if code c <? 32 then (LFail, out)
      else (LStr (snoc buf c), out)
  | LEsc buf =>
      match c with
      | ("034" | "092" | "/")%char => (LStr (snoc buf c), out)
      | "b"%char => (LStr (snoc buf "008"), out)
      | "f"%char => (LStr (snoc buf "012"), out)
      | "n"%char => (LStr (snoc buf "010"), out)
      | "r"%char => (LStr (snoc buf "013"), out)
      | "t"%char => (LStr (snoc buf "009"), out)
      | "u"%char => (LUni buf 0 0, out)
      | _ => (LFail, out)
      end
  | LUni buf n seen =>
      match hex_value c with
      | Some d =>
          if seen =? 3 then (LStr (buf +:+ utf8_of_unit (16 * n + d)), out)
          else (LUni buf (16 * n + d) (S seen), out)
      | None => (LFail, out)
      end
  | LNum buf =>
      if is_number_char c then (LNum (snoc buf c), out)
      else if valid_number buf then lex_idle c (TNum buf :: out)
      else (LFail, out)
  | LWord buf =>
      if is_lower c then (LWord (snoc buf c), out)
      else match word_token buf with
           | Some t => lex_idle c (t :: out)
           | None => (LFail, out)
           end
  | LFail => (LFail, out)
  end.

Fixpoint lex_run (l : lexer) (s : string) : lexer :=
  match s with
  | "" => l
  | String c r => lex_run (lstep l c) r
  end.

Definition lex_finish (l : lexer) : option (list token) :=
  match l with
  | (LIdle, out) => Some (reverse out)
  | (LNum buf, out) => if valid_number buf then Some (reverse (TNum buf :: out)) else None
  | (LWord buf, out) => (fun t => reverse (t :: out)) <$> word_token buf
  | _ => None
  end.

Definition JSON_lex (s : string) : option (list token) :=
  lex_finish (lex_run (LIdle, []) s).

(** *** Recogniser *)

(** An enclosing container that waits for the value being read. *)
Inductive frame :=
| FArr (rev_items : list json)
| FObj (rev_members : list (string * json)) (key : string).

Inductive pstate :=
| SValue (k : list frame)
| SArrStart (k : list frame)
| SArrNext (rev_items : list json) (k : list frame)
| SObjStart (k : list frame)
| SObjKey (rev_members : list (string * json)) (k : list frame)
| SObjColon (rev_members : list (string * json)) (key : string) (k : list frame)
| SObjNext (rev_members : list (string * json)) (k : list frame)
| SDone (v : json)
| SFail.

Definition deliver (v : json) (k : list frame) : pstate :=
  match k with
  | [] => SDone v
  | FArr items :: k' => SArrNext (v :: items) k'
  | FObj ms key :: k' => SObjNext ((key, v) :: ms) k'
  end.

Definition pvalue (t : token) (k : list frame) : pstate :=
  match t with
  | TNull => deliver JNull k
  | TTrue => deliver (JBool true) k
  | TFalse => deliver (JBool false) k
  | TNum lit => deliver (JNumber (of_literal lit)) k
  | TStr s => deliver (JString s) k
  | TLBracket => SArrStart k
  | TLBrace => SObjStart k
  | _ => SFail
  end.

Definition pstep (p : pstate) (t : token) : pstate :=
  match p with
  | SValue k => pvalue t k
  | SArrStart k =>
      match t with
      | TRBracket => deliver (JArray []) k
      | _ => pvalue t (FArr [] :: k)
      end
  | SArrNext items k =>
      match t with
      | TComma => SValue (FArr items :: k)
      | TRBracket => deliver (JArray (reverse items)) k
      | _ => SFail
      end
  | SObjStart k =>
      match t with
      | TRBrace => deliver (JObject []) k
      | TStr key => SObjColon [] key k
      | _ => SFail
      end
  | SObjKey ms k =>
      match t with
      | TStr key => SObjColon ms key k
      | _ => SFail
      end
  | SObjColon ms key k =>
      match t with
      | TColon => SValue (FObj ms key :: k)
      | _ => SFail
      end
  | SObjNext ms k =>
      match t with
      | TComma => SObjKey ms k
      | TRBrace => deliver (JObject (reverse ms)) k
      | _ => SFail
      end
  | SDone _ => SFail
  | SFail => SFail
  end.

Definition parse_tokens (ts : list token) : option json :=
  match foldl pstep (SValue []) ts with
  | SDone v => Some v
  | _ => None
  end.

Definition JSON_parse (s : string) : option json :=
  JSON_lex s ≫= parse_tokens.

End Json.

(** ** HTML

    Assigning to [innerHTML] runs the HTML fragment parser on the assigned
    string, here with an [li] for context and so in the insertion mode
    [in body].  The embedding follows the tokenizer and the tree builder of
    the HTML standard on this part of the language:
    - character data, U+0000 being dropped;
    - in character data, the character references [amp], [lt], [gt], [quot],
      [apos] and [nbsp] closed by a semicolon, and an ampersand that no
      letter, digit or [#] follows;
    - comments, and what the standard reads as a comment ([<?], and [<!]
      before anything but a doctype);
    - start and end tags, with attributes whose values hold no ampersand, of
      the elements that the tree builder treats as ordinary (those without a
      rule of their own in that insertion mode, [span] for one), of [button]
      where no button is open, and of the void elements listed below.
    Outside of it the tree of a browser is not the one computed here: the
    other character references; a doctype; the formatting elements ([b],
    [i], [a] and the like), which are opened again after an end tag; the
    elements whose tags close other elements or stop an end tag ([li], [p],
    [div] and the like); raw text ([textarea], [script]); tables, [select],
    [svg] and [math].  So a theorem below that depends on the tree of an
    item takes the text of the task without [<], [&] and U+0000, or is an
    evaluation on a text inside this part; the others hold whatever the
    trees are. *)

Module Html.
Import JsString.

#[warnings="-register-all"]
Inductive node :=
| Text (s : string)
| Comment
| Element (name : string) (attrs : list (string * string)) (children : list node).

(** *** Tree builder *)

Record open_element := {
  oe_name : string;
  oe_attrs : list (string * string);
  oe_rev_children : list node
}.

(** The children of the context element built so far, last first, and the
    stack of open elements, innermost first. *)
Record builder := {
  rev_top : list node;
  stack : list open_element
}.

Definition empty_builder : builder := {| rev_top := []; stack := [] |}.

Definition insert_node (n : node) (b : builder) : builder :=
  match stack b with
  | [] => {| rev_top := n :: rev_top b; stack := [] |}
  | o :: k =>
      {| rev_top := rev_top b;
         stack := {| oe_name := oe_name o; oe_attrs := oe_attrs o;
                     oe_rev_children := n :: oe_rev_children o |} :: k |}
  end.

(** A character joins the text node that ends the current node, if any. *)
Definition push_char (c : ascii) (l : list node) : list node :=
  match l with
  | Text s :: r => Text (snoc s c) :: r
  | _ => Text (String c "") :: l
  end.

Definition emit_char (c : ascii) (b : builder) : builder :=
  match stack b with
  | [] => {| rev_top := push_char c (rev_top b); stack := [] |}
  | o :: k =>
      {| rev_top := rev_top b;
         stack := {| oe_name := oe_name o; oe_attrs := oe_attrs o;
                     oe_rev_children := push_char c (oe_rev_children o) |} :: k |}
  end.

Fixpoint emit_text (s : string) (b : builder) : builder :=
  match s with
  | "" => b
  | String c r => emit_text r (emit_char c b)
  end.

Definition close_top (b : builder) : builder :=
  match stack b with
  | [] => b
  | o :: k =>
      insert_node (Element (oe_name o) (oe_attrs o) (reverse (oe_rev_children o)))
        {| rev_top := rev_top b; stack := k |}
  end.

Fixpoint pop_until (name : string) (k : list open_element) (b : builder) : builder :=
  match k with
  | [] => b
  | o :: k' =>
      if bool_decide (oe_name o = name) then close_top b
      else pop_until name k' (close_top b)
  end.

(** The elements that a start tag inserts and closes at once. *)
Definition void_elements : list string :=
  ["area"; "base"; "basefont"; "bgsound"; "br"; "embed"; "hr"; "img"; "input";
   "keygen"; "link"; "meta"; "param"; "source"; "track"; "wbr"].

Definition start_tag (name : string) (attrs : list (string * string)) (b : builder) : builder :=
  if bool_decide (name ∈ void_elements) then insert_node (Element name attrs []) b
  else {| rev_top := rev_top b;
          stack := {| oe_name := name; oe_attrs := attrs; oe_rev_children := [] |} :: stack b |}.

(** An end tag closes the nearest open element of its name together with
    everything opened inside it; without such an element it is ignored. *)
Definition end_tag (name : string) (b : builder) : builder :=
  if bool_decide (name ∈ oe_name <$> stack b) then pop_until name (stack b) b else b.

Fixpoint close_all (k : list open_element) (b : builder) : builder :=
  match k with
  | [] => b
  | _ :: k' => close_all k' (close_top b)
  end.

(** *** Tokenizer *)

Record tag := {
  t_closing : bool;
  t_name : string;
  t_rev_attrs : list (string * string)
}.

Definition add_attr (t : tag) (n v : string) : tag :=
  if bool_decide (n ∈ fst <$> t_rev_attrs t) then t
  else {| t_closing := t_closing t; t_name := t_name t;
          t_rev_attrs := (n, v) :: t_rev_attrs t |}.

Definition name_snoc (t : tag) (c : ascii) : tag :=
  {| t_closing := t_closing t; t_name := snoc (t_name t) (to_lower c);
     t_rev_attrs := t_rev_attrs t |}.

Definition emit_tag (t : tag) (b : builder) : builder :=
  if t_closing t then end_tag (t_name t) b
  else start_tag (t_name t) (reverse (t_rev_attrs t)) b.

Inductive cstate := CStart | CStartDash | CBody | CEndDash | CEnd | CEndBang.

Inductive hstate :=
| HData
| HCharRef (buf : string)
| HTagOpen
| HEndTagOpen
| HTagName (t : tag)
| HBeforeAttrName (t : tag)
| HAttrName (t : tag) (n : string)
| HAfterAttrName (t : tag) (n : string)
| HBeforeAttrValue (t : tag) (n : string)
| HAttrValue (t : tag) (n : string) (q : option ascii) (v : string)
| HAfterAttrValue (t : tag)
| HSelfClosing (t : tag)
| HMarkupDecl (dash : bool)
| HBogus
| HComment (c : cstate).

Definition parser : Type := hstate * builder.

Definition is_html_ws (c : ascii) : bool :=
  match c with
  | ("009" | "010" | "012" | "013" | " ")%char => true
  | _ => false
  end.

Definition is_alnum (c : ascii) : bool := is_alpha c || is_digit c.

Definition entity (name : string) : option string :=
  if bool_decide (name = "amp") then Some "&"
  else if bool_decide (name = "lt") then Some "<"
  else if bool_decide (name = "gt") then Some ">"
  else if bool_decide (name = "quot") then Some (String "034" "")
  else if bool_decide (name = "apos") then Some "'"
  else if bool_decide (name = "nbsp") then Some (String "194" (String "160" ""))
  else None.

Definition data_step (c : ascii) (b : builder) : parser :=
  if (c =? "&")%char then (HCharRef "", b)
  else if (c =? "<")%char then (HTagOpen, b)
  else if (c =? "000")%char then (HData, b)
  else (HData, emit_char c b).

Definition before_attr_name_step (t : tag) (c : ascii) (b : builder) : parser :=
  if is_html_ws c then (HBeforeAttrName t, b)
  else if (c =? "/")%char then (HSelfClosing t, b)
  else if (c =? ">")%char then (HData, emit_tag t b)
  else (HAttrName t (String (to_lower c) ""), b).

Definition comment_body_step (c : ascii) (b : builder) : parser :=
  if (c =? "-")%char then (HComment CEndDash, b) else (HComment CBody, b).

Definition comment_step (cs : cstate) (c : ascii) (b : builder) : parser :=
  match cs with
  | CStart =>
      if (c =? "-")%char then (HComment CStartDash, b)
      else if (c =? ">")%char then (HData, insert_node Comment b)
      else comment_body_step c b
  | CStartDash =>
      if (c =? "-")%char then (HComment CEnd, b)
      else if (c =? ">")%char then (HData, insert_node Comment b)
      else comment_body_step c b
  | CBody => comment_body_step c b
  | CEndDash =>
      if (c =? "-")%char then (HComment CEnd, b) else comment_body_step c b
  | CEnd =>
      if (c =? ">")%char then (HData, insert_node Comment b)
      else if (c =? "!")%char then (HComment CEndBang, b)
      else if (c =? "-")%char then (HComment CEnd, b)
      else comment_body_step c b
  | CEndBang =>
      if (c =? "-")%char then (HComment CEndDash, b)
      else if (c =? ">")%char then (HData, insert_node Comment b)
      else comment_body_step c b
  end.

Definition bogus_step (c : ascii) (b : builder) : parser :=
  if (c =? ">")%char then (HData, insert_node Comment b) else (HBogus, b).

Definition new_tag (closing : bool) (c : ascii) : tag :=
  {| t_closing := closing; t_name := String (to_lower c) ""; t_rev_attrs := [] |}.

Definition hstep (p : parser) (c : ascii) : parser :=
  let '(st, b) := p in
  match st with
  | HData => data_step c b
  | HCharRef buf =>
      if is_alnum c then (HCharRef (snoc buf c), b)
      else if (c =? ";")%char then
        match entity buf with
        | Some s => (HData, emit_text s b)
        | None => (HData, emit_text ("&" +:+ buf +:+ ";") b)
        end
      else data_step c (emit_text ("&" +:+ buf) b)
  | HTagOpen =>
      if (c =? "!")%char then (HMarkupDecl false, b)
      else if (c =? "/")%char then (HEndTagOpen, b)
      else if (c =? "?")%char then (HBogus, b)
      else if is_alpha c then (HTagName (new_tag false c), b)
      else data_step c (emit_char "<" b)
  | HEndTagOpen =>
      if (c =? ">")%char then (HData, b)
      else if is_alpha c then (HTagName (new_tag true c), b)
      else (HBogus, b)
  | HTagName t =>
      if is_html_ws c then (HBeforeAttrName t, b)
      else if (c =? "/")%char then (HSelfClosing t, b)
      else if (c =? ">")%char then (HData, emit_tag t b)
      else (HTagName (name_snoc t c), b)
  | HBeforeAttrName t => before_attr_name_step t c b
  | HAttrName t n =>
      if is_html_ws c then (HAfterAttrName t n, b)
      else if (c =? "/")%char then (HSelfClosing (add_attr t n ""), b)
      else if (c =? ">")%char then (HData, emit_tag (add_attr t n "") b)
      else if (c =? "=")%char then (HBeforeAttrValue t n, b)
      else (HAttrName t (snoc n (to_lower c)), b)
  | HAfterAttrName t n =>
      if is_html_ws c then (HAfterAttrName t n, b)
      else if (c =? "/")%char then (HSelfClosing (add_attr t n ""), b)
      else if (c =? "=")%char then (HBeforeAttrValue t n, b)
      else if (c =? ">")%char then (HData, emit_tag (add_attr t n "") b)
      else (HAttrName (add_attr t n "") (String (to_lower c) ""), b)
  | HBeforeAttrValue t n =>
      if is_html_ws c then (HBeforeAttrValue t n, b)
      else if (c =? "034")%char || (c =? "'")%char then (HAttrValue t n (Some c) "", b)
      else if (c =? ">")%char then (HData, emit_tag (add_attr t n "") b)
      else (HAttrValue t n None (String c ""), b)
  | HAttrValue t n (Some q) v =>
      if (c =? q)%char then (HAfterAttrValue (add_attr t n v), b)
      else (HAttrValue t n (Some q) (snoc v c), b)
  | HAttrValue t n None v =>
      if is_html_ws c then (HBeforeAttrName (add_attr t n v), b)
      else if (c =? ">")%char then (HData, emit_tag (add_attr t n v) b)
      else (HAttrValue t n None (snoc v c), b)
  | HAfterAttrValue t => before_attr_name_step t c b
  | HSelfClosing t =>
      if (c =? ">")%char then (HData, emit_tag t b)
      else before_attr_name_step t c b
  | HMarkupDecl dash =>
      if (c =? "-")%char then (if dash then (HComment CStart, b) else (HMarkupDecl true, b))
      else bogus_step c b
  | HBogus => bogus_step c b
  | HComment cs => comment_step cs c b
  end.

Fixpoint hrun (p : parser) (s : string) : parser :=
  match s with
  | "" => p
  | String c r => hrun (hstep p c) r
  end.

(** End of input: pending text is flushed, an unfinished tag is dropped, an
    unfinished comment is kept, and every element still open is closed. *)
Definition hfinish (p : parser) : list node :=
  let '(st, b) := p in
  let b' := match st with
            | HCharRef buf => emit_text ("&" +:+ buf) b
            | HTagOpen => emit_char "<" b
            | HEndTagOpen => emit_text "</" b
            | HMarkupDecl _ | HBogus | HComment _ => insert_node Comment b
            | _ => b
            end in
  reverse (rev_top (close_all (stack b') b')).

Definition parse_fragment (s : string) : list node :=
  hfinish (hrun (HData, empty_builder) s).

(** *** Selectors and rendered text *)

Fixpoint split_ws (s : string) (cur : string) : list string :=
  match s with
  | "" => if bool_decide (cur = "") then [] else [cur]
  | String c r =>
      if is_html_ws c
      then (if bool_decide (cur = "") then split_ws r "" else cur :: split_ws r "")
      else split_ws r (snoc cur c)
  end.

Fixpoint get_attr (n : string) (attrs : list (string * string)) : option string :=
  match attrs with
  | [] => None
  | (k, v) :: r => if bool_decide (k = n) then Some v else get_attr n r
  end.

Definition has_class (cls : string) (attrs : list (string * string)) : bool :=
  match get_attr "class" attrs with
  | Some v => bool_decide (cls ∈ split_ws v "")
  | None => false
  end.

(** The first element, in tree order, that satisfies [p]. *)
Fixpoint find_in (p : string → list (string * string) → bool) (n : node) : option node :=
  match n with
  | Element name attrs children =>
      if p name attrs then Some n
      else (fix among (l : list node) : option node :=
              match l with
              | [] => None
              | x :: r => match find_in p x with
                          | Some e => Some e
                          | None => among r
                          end
              end) children
  | _ => None
  end.

Fixpoint find_among (p : string → list (string * string) → bool) (l : list node) : option node :=
  match l with
  | [] => None
  | x :: r => match find_in p x with
              | Some e => Some e
              | None => find_among p r
              end
  end.

Definition by_tag (t : string) : string → list (string * string) → bool :=
  fun name _ => bool_decide (name = t).

Definition by_class (cls : string) : string → list (string * string) → bool :=
  fun _ attrs => has_class cls attrs.

Fixpoint textContent (n : node) : string :=
  match n with
  | Text s => s
  | Comment => ""
  | Element _ _ children =>
      (fix cat (l : list node) : string :=
         match l with
         | [] => ""
         | x :: r => textContent x +:+ cat r
         end) children
  end.

(** *** Places in a tree *)

Definition children_of (n : node) : list node :=
  match n with
  | Element _ _ children => children
  | _ => []
  end.

Definition is_element (n : node) : bool :=
  match n with
  | Element _ _ _ => true
  | _ => false
  end.

(** A path is a position among some nodes, then a position among the
    children of the node found there, and so on. *)
Fixpoint node_at (l : list node) (path : list nat) : option node :=
  match path with
  | [] => None
  | k :: rest =>
      match l !! k with
      | Some n => match rest with [] => Some n | _ => node_at (children_of n) rest end
      | None => None
      end
  end.

Definition element_at (l : list node) (path : list nat) : option node :=
  n ← node_at l path; if is_element n then Some n else None.

(** The place of the element that [find_in] returns, from [n] itself. *)
Fixpoint path_in (p : string → list (string * string) → bool) (n : node) : option (list nat) :=
  match n with
  | Element name attrs children =>
      if p name attrs then Some []
      else (fix among (l : list node) (k : nat) : option (list nat) :=
              match l with
              | [] => None
              | x :: r => match path_in p x with
                          | Some q => Some (k :: q)
                          | None => among r (S k)
                          end
              end) children 0
  | _ => None
  end.

(** The place of the element that [find_among] returns, the first of the
    nodes counting as the [k]-th. *)
Fixpoint path_among (p : string → list (string * string) → bool) (l : list node) (k : nat)
    : option (list nat) :=
  match l with
  | [] => None
  | x :: r => match path_in p x with
              | Some q => Some (k :: q)
              | None => path_among p r (S k)
              end
  end.

(** [closest]: the place of the nearest element named [name] at or above
    the place [path], by the elements that [path] goes through. *)
Fixpoint closest_at (name : string) (l : list node) (path : list nat) : option (list nat) :=
  match path with
  | [] => None
  | k :: rest =>
      match l !! k with
      | Some (Element n _ children) =>
          match closest_at name children rest with
          | Some q => Some (k :: q)
          | None => if bool_decide (n = name) then Some [k] else None
          end
      | _ => None
      end
  end.

(** A path as the place of its parent and a position among the parent's
    children. *)
Definition split_last (path : list nat) : option (list nat * nat) :=
  k ← last path; Some (take (length path - 1) path, k).

(** The children of the node at [parent]; those of the root for the empty
    path. *)
Definition children_at (l : list node) (parent : list nat) : list node :=
  match parent with
  | [] => l
  | _ => from_option children_of [] (node_at l parent)
  end.

(** The position of the first element after the [k]-th node. *)
Definition next_element (l : list node) (k : nat) : option nat :=
  (λ p, S k + p.1) <$> list_find (λ n, is_element n = true) (drop (S k) l).

(** White space as the rendering sees it: space, TAB and the line break (a
    CR reaches the tree as a line break). *)
Definition is_render_ws (c : ascii) : bool :=
  match c with
  | ("009" | "010" | "013" | " ")%char => true
  | _ => false
  end.

(** White-space collapsing of the rendering ([white-space: normal]): a run of
    white space becomes one space, and none is kept at either end. *)
Fixpoint collapse (s : string) (started pending : bool) : string :=
  match s with
  | "" => ""
  | String c r =>
      if is_render_ws c then collapse r started started
      else if pending then String " " (String c (collapse r true false))
      else String c (collapse r true false)
  end.

Definition collapse_ws (s : string) : string := collapse s false false.

(** [innerText] of an element that holds inline content on one line: its
    text as rendered under the default style.  White space at the end of the
    text is dropped here; the rendering keeps one space of it when more
    content follows on the line, as the buttons follow the span of an item,
    so the theorems below read the text of an item only where it does not
    end in white space. *)
Definition innerText (n : node) : string := collapse_ws (textContent n).

End Html.

(** ** The page *)

Import JsString JsNumber Json Html.

(** A task item: the [li] element made by the script.  [li_children] is the
    tree its [innerHTML] was parsed into, [li_classList] its class list. *)
Record li := {
  li_children : list node;
  li_classList : list string;
  li_draggable : bool
}.

(** [localStorage]: the stored items, and the number of [setItem] calls made
    so far, which tells a write of an unchanged value from no write. *)
Record storage := {
  items : gmap string string;
  writes : nat
}.

(** What the script reads and writes: the input field, the children of the
    list element in display order, the store, and whether the handlers of
    lines 11 to 17 have been registered. *)
Record page := {
  taskInput_value : string;
  taskList_children : list li;
  localStorage : storage;
  listening : bool
}.

(** An element as an event hands it to a handler, by its place in the page:
    the [i]-th child of the list; the element inside that child that [path]
    leads to from the children of the item; or an element that lies in no
    item, which for the events of the list is the list itself.  A path that
    leads to no element stands for none. *)
Inductive element :=
| Item (i : nat)
| Inside (i : nat) (path : list nat)
| Elsewhere.

(** The event of [click] and [keyup]; a mouse event has no [key]. *)
Record Event := { key : option string }.

(** A drag event: its target, the pointer's [clientY], the text the drag
    carries, and the layout of the drop target at the time of the event:
    [getBoundingClientRect().top], a Number as [clientY] is, and
    [clientHeight], an integer. *)
Record DragEvent := {
  target : element;
  clientY : number;
  dataTransfer_text : string;
  box_top : number;
  box_clientHeight : Z
}.

Inductive error := TypeError | SyntaxError | NotFoundError.

Inductive completion (A : Type) :=
| Normal (a : A)
| Throw (e : error).
Arguments Normal {A} a.
Arguments Throw {A} e.

(** A handler runs on the page and either returns or throws; what it changed
    before throwing stays changed. *)
Definition js (A : Type) : Type := page → completion A * page.

#[global] Instance js_ret : MRet js := λ A a s, (Normal a, s).

#[global] Instance js_bind : MBind js := λ A B f m s,
  match m s with
  | (Normal a, s') => f a s'
  | (Throw e, s') => (Throw e, s')
  end.

Definition throw {A} (e : error) : js A := λ s, (Throw e, s).

Definition gets {A} (f : page → A) : js A := λ s, (Normal (f s), s).

Definition modify (f : page → page) : js unit := λ s, (Normal (), f s).

Definition set_taskInput_value (v : string) (s : page) : page :=
  {| taskInput_value := v; taskList_children := taskList_children s;
     localStorage := localStorage s; listening := listening s |}.

Definition set_children (l : list li) (s : page) : page :=
  {| taskInput_value := taskInput_value s; taskList_children := l;
     localStorage := localStorage s; listening := listening s |}.

Definition set_localStorage (st : storage) (s : page) : page :=
  {| taskInput_value := taskInput_value s; taskList_children := taskList_children s;
     localStorage := st; listening := listening s |}.

Definition set_listening (b : bool) (s : page) : page :=
  {| taskInput_value := taskInput_value s; taskList_children := taskList_children s;
     localStorage := localStorage s; listening := b |}.

(** *** Platform operations *)

Definition getItem (k : string) : js (option string) :=
  gets (λ s, items (localStorage s) !! k).

Definition setItem (k v : string) : js unit :=
  modify (λ s, set_localStorage
    {| items := <[k := v]> (items (localStorage s)); writes := S (writes (localStorage s)) |} s).

Definition set_classList (l : list string) (x : li) : li :=
  {| li_children := li_children x; li_classList := l; li_draggable := li_draggable x |}.

Definition set_draggable (b : bool) (x : li) : li :=
  {| li_children := li_children x; li_classList := li_classList x; li_draggable := b |}.

Definition classList_contains (c : string) (x : li) : bool :=
  bool_decide (c ∈ li_classList x).

Definition classList_add (c : string) (x : li) : li :=
  if classList_contains c x then x else set_classList (li_classList x ++ [c]) x.

Definition classList_remove (c : string) (x : li) : li :=
  set_classList (filter (λ d, d ≠ c) (li_classList x)) x.

Definition classList_toggle (c : string) (x : li) : li :=
  if classList_contains c x then classList_remove c x else classList_add c x.

(** A change of the class list or of the [draggable] flag of [e].  Only
    those of the items are part of the page: no code of the script reads the
    classes of an inner element after the item is built. *)
Definition update_element (f : li → li) (e : element) : js unit :=
  match e with
  | Item i => modify (λ s, set_children (alter f i (taskList_children s)) s)
  | _ => mret ()
  end.

Definition appendChild (x : li) : js nat :=
  λ s, (Normal (length (taskList_children s)),
        set_children (taskList_children s ++ [x]) s).

(** [taskList.removeChild]: a node that is not a child of the list is
    refused with [NotFoundError]. *)
Definition removeChild (e : element) : js unit :=
  λ s, match e with
       | Item i =>
           if decide (i < length (taskList_children s))
           then (Normal (), set_children (delete i (taskList_children s)) s)
           else (Throw NotFoundError, s)
       | _ => (Throw NotFoundError, s)
       end.

Definition nextElementSibling {A} (l : list A) (i : nat) : option nat :=
  if decide (S i < length l) then Some (S i) else None.

(** [taskList.insertBefore(node, child)] for a [node] that is the [d]-th
    child: when [child] is [node] itself the reference becomes its next
    sibling; the node leaves its place and enters before the reference, or at
    the end when the reference is [null]. *)
Definition insertBefore {A} (d : nat) (child : option nat) (l : list A) : list A :=
  match l !! d with
  | None => l
  | Some x =>
      let ref := if bool_decide (child = Some d) then nextElementSibling l d else child in
      let rest := delete d l in
      match ref with
      | None => rest ++ [x]
      | Some r =>
          let r' := if decide (d < r) then r - 1 else r in
          take r' rest ++ x :: drop r' rest
      end
  end.

(** [taskList.insertBefore(node, child)] for the [d]-th child and any
    [child]: an element that is not a child of the list is refused with
    [NotFoundError]. *)
Definition taskList_insertBefore (d : nat) (child : option element) : js unit :=
  match child with
  | None => modify (λ s, set_children (insertBefore d None (taskList_children s)) s)
  | Some (Item t) =>
      modify (λ s, set_children (insertBefore d (Some t) (taskList_children s)) s)
  | Some _ => throw NotFoundError
  end.

(** [e.parentElement]; the parent of an item is the list. *)
Definition parentElement (e : element) : element :=
  match e with
  | Inside i path =>
      match split_last path with
      | Some ([], _) => Item i
      | Some (parent, _) => Inside i parent
      | None => Elsewhere
      end
  | _ => Elsewhere
  end.

(** [e.closest('li')]: an [li] that the text of the task has put inside the
    item is nearer than the item.  The list itself is taken to lie in no
    [li]. *)
Definition closest_li (l : list li) (e : element) : option element :=
  match e with
  | Item i => if decide (i < length l) then Some (Item i) else None
  | Inside i path =>
      x ← l !! i;
      _ ← element_at (li_children x) path;
      Some (match closest_at "li" (li_children x) path with
            | Some q => Inside i q
            | None => Item i
            end)
  | Elsewhere => None
  end.

(** [e.nextElementSibling]. *)
Definition nextElementSibling_of (l : list li) (e : element) : option element :=
  match e with
  | Item i => Item <$> nextElementSibling l i
  | Inside i path =>
      x ← l !! i;
      '(parent, k) ← split_last path;
      k' ← next_element (children_at (li_children x) parent) k;
      Some (Inside i (parent ++ [k']))
  | Elsewhere => None
  end.

Definition querySelector (sel : string → list (string * string) → bool) (x : li) : option node :=
  find_among sel (li_children x).

(** [addEventListener] on the result of a [querySelector]: a [TypeError] on
    [null].  The listener stays on the element that was found, and the
    script never changes the inside of an item, so a later click finds it
    where the query found it: see [deleteBtn], [completeBtn] and [click]
    below. *)
Definition addEventListener (n : option node) : js unit :=
  match n with
  | Some _ => mret ()
  | None => throw TypeError
  end.

(** *** Values read back from the store *)

(** The result of a property read: [None] is [undefined]. *)
Definition value := option json.

Fixpoint get_member (k : string) (ms : list (string * json)) (found : value) : value :=
  match ms with
  | [] => found
  | (k', v) :: r => get_member k r (if bool_decide (k' = k) then Some v else found)
  end.

(** [o.text] and [o.completed]: a [TypeError] on [null]; an object gives its
    last member of that name; every other value has no such property. *)
Definition get_property (o : json) (k : string) : js value :=
  match o with
  | JNull => throw TypeError
  | JObject ms => mret (get_member k ms None)
  | _ => mret None
  end.

(** ToBoolean. *)
Definition truthy (v : value) : bool :=
  match v with
  | None | Some JNull => false
  | Some (JBool b) => b
  | Some (JNumber x) => negb (is_zero_or_nan x)
  | Some (JString s) => negb (bool_decide (s = ""))
  | Some (JArray _) | Some (JObject _) => true
  end.

(** ToString, as the template literal applies it. *)
Fixpoint to_string (j : json) : string :=
  match j with
  | JNull => "null"
  | JBool true => "true"
  | JBool false => "false"
  | JNumber x => toString x
  | JString s => s
  | JArray l =>
      join "," (map (λ x, match x with JNull => "" | _ => to_string x end) l)
  | JObject _ => "[object Object]"
  end.

Definition ToString (v : value) : string :=
  match v with
  | None => "undefined"
  | Some j => to_string j
  end.

(** *** The script *)

Record task := { text : string; completed : bool }.

Definition task_json (t : task) : json :=
  JObject [("text", JString (text t)); ("completed", JBool (completed t))].

Definition newline : string := String "010" "".

(** The template literal of lines 30 to 34 and 119 to 123. *)
Definition item_markup (taskText : string) : string :=
  newline +:+ "                <span>" +:+ taskText +:+ "</span>" +:+
  newline +:+ "                <button class=" +:+ String dquote "deleteBtn" +:+
    String dquote ">Delete</button>" +:+
  newline +:+ "                <button class=" +:+ String dquote "completeBtn" +:+
    String dquote ">Complete</button>" +:+
  newline +:+ "            ".

(** [document.createElement('li')] followed by the assignment to
    [innerHTML]. *)
Definition createElement_li (markup : string) : li :=
  {| li_children := parse_fragment markup; li_classList := []; li_draggable := false |}.

(** One entry of the array built by [saveTasks]; [None] when the item has no
    [span], where [.innerText] is read from [null]. *)
Definition task_of_item (taskItem : li) : option task :=
  span ← querySelector (by_tag "span") taskItem;
  Some {| text := innerText span; completed := classList_contains "completed" taskItem |}.

Definition tasks_of (l : list li) : option (list task) := mapM task_of_item l.

Definition saveTasks : js unit :=
  children ← gets taskList_children;
  match tasks_of children with
  | Some tasks => setItem "tasks" (JSON_stringify (JArray (task_json <$> tasks)))
  | None => throw TypeError
  end.

Definition addTask (event : Event) : js unit :=
  if bool_decide (key event = Some "Enter") then
    taskText ← gets (λ s, trim (taskInput_value s));
    if bool_decide (taskText = "") then mret ()
    else
      let taskItem := createElement_li (item_markup taskText) in
      i ← appendChild taskItem;
      modify (set_taskInput_value "");;
      let deleteBtn := querySelector (by_class "deleteBtn") taskItem in
      let completeBtn := querySelector (by_class "completeBtn") taskItem in
      addEventListener deleteBtn;;
      addEventListener completeBtn;;
      update_element (set_draggable true) (Item i);;
      saveTasks
  else mret ().

(** [this.parentElement] is the argument. *)
Definition deleteTask (parentElement : element) : js unit :=
  removeChild parentElement;;
  saveTasks.

Definition toggleComplete (parentElement : element) : js unit :=
  update_element (classList_toggle "completed") parentElement;;
  saveTasks.

Definition restore_item (t : json) : js unit :=
  task_text ← get_property t "text";
  let taskItem := createElement_li (item_markup (ToString task_text)) in
  i ← appendChild taskItem;
  task_completed ← get_property t "completed";
  (if truthy task_completed
   then update_element (classList_add "completed") (Item i)
   else mret ());;
  let deleteBtn := querySelector (by_class "deleteBtn") taskItem in
  let completeBtn := querySelector (by_class "completeBtn") taskItem in
  addEventListener deleteBtn;;
  addEventListener completeBtn;;
  update_element (set_draggable true) (Item i).

Fixpoint forEach {A} (l : list A) (f : A → js unit) : js unit :=
  match l with
  | [] => mret ()
  | x :: r => f x;; forEach r f
  end.

(** [JSON.parse(null)] reads the text [null]; a value that is not an array
    has no [forEach] to call. *)
Definition loadTasks : js unit :=
  stored ← getItem "tasks";
  match JSON_parse (default "null" stored) with
  | None => throw SyntaxError
  | Some parsed =>
      let tasks := if truthy (Some parsed) then parsed else JArray [] in
      match tasks with
      | JArray l => forEach l restore_item
      | _ => throw TypeError
      end
  end.

(** The [DOMContentLoaded] callback: the handlers are registered after
    [loadTasks] has returned. *)
Definition main : js unit :=
  loadTasks;;
  modify (set_listening true).

(** [e.querySelector('span')]: the first span below [e], which for the list
    is the first span of the first item that has one. *)
Definition first_span_below (l : list li) (e : element) : option node :=
  match e with
  | Item i => l !! i ≫= querySelector (by_tag "span")
  | Inside i path =>
      x ← l !! i;
      n ← element_at (li_children x) path;
      find_among (by_tag "span") (children_of n)
  | Elsewhere => find_among (by_tag "span") (l ≫= li_children)
  end.

(** The result is the text that [setData] puts in the drag data store. *)
Definition handleDragStart (event : DragEvent) : js string :=
  children ← gets taskList_children;
  match first_span_below children (target event) with
  | Some span => mret (innerText span)
  | None => throw TypeError
  end.

Definition handleDragEnter (event : DragEvent) : js unit :=
  update_element (classList_add "drag-over") (target event).

(** [preventDefault] and [dropEffect] leave the page as it is. *)
Definition handleDragOver (event : DragEvent) : js unit := mret ().

Definition handleDragLeave (event : DragEvent) : js unit :=
  update_element (classList_remove "drag-over") (target event).

(** The loop of [findTaskItemByText], from index [i] on. *)
Fixpoint find_from (text : string) (l : list li) (i : nat) : completion (option nat) :=
  match l with
  | [] => Normal None
  | x :: r =>
      match querySelector (by_tag "span") x with
      | None => Throw TypeError
      | Some span =>
          if bool_decide (innerText span = text) then Normal (Some i)
          else find_from text r (S i)
      end
  end.

(** The item found is given by its index among the children. *)
Definition findTaskItemByText (text : string) : js (option nat) :=
  λ s, (find_from text (taskList_children s) 0, s).

(** The test of line 206, in the arithmetic of Numbers: the quotient is
    exact, the sum is rounded. *)
Definition above_midpoint (event : DragEvent) : bool :=
  lt (clientY event)
     (add (box_top event) (div (of_Z (box_clientHeight event)) (of_Z 2))).

Definition handleDrop (event : DragEvent) : js unit :=
  update_element (classList_remove "drag-over") (target event);;
  let draggedText := dataTransfer_text event in
  draggedItem ← findTaskItemByText draggedText;
  dropTarget ← gets (λ s, closest_li (taskList_children s) (target event));
  match draggedItem, dropTarget with
  | Some d, Some t =>
      (if above_midpoint event
       then taskList_insertBefore d (Some t)
       else
         sibling ← gets (λ s, nextElementSibling_of (taskList_children s) t);
         taskList_insertBefore d sibling);;
      saveTasks
  | _, _ => mret ()
  end.

(** The element of an item that holds the click listener of [deleteTask]:
    the one that line 43, or line 134, found. *)
Definition deleteBtn (x : li) : option (list nat) :=
  path_among (by_class "deleteBtn") (li_children x) 0.

(** The element that holds the click listener of [toggleComplete]: the one
    that line 44, or line 135, found.  Lines 48 and 139 are reached only
    when the line before them has not thrown. *)
Definition completeBtn (x : li) : option (list nat) :=
  _ ← deleteBtn x; path_among (by_class "completeBtn") (li_children x) 0.

(** A click that reaches the listener on the element [btn] of the [i]-th
    item: the handler runs with that element as [this].  Without the
    listener nothing runs. *)
Definition click (btn : li → option (list nat)) (handler : element → js unit) (i : nat)
    : js unit :=
  children ← gets taskList_children;
  match children !! i ≫= btn with
  | Some path => handler (parentElement (Inside i path))
  | None => mret ()
  end.

Definition empty_page : page :=
  {| taskInput_value := ""; taskList_children := [];
     localStorage := {| items := ∅; writes := 0 |}; listening := false |}.

(** Closing the page and opening it again: a fresh page over the same
    store, on which the [DOMContentLoaded] callback runs. *)
Definition reload (s : page) : completion unit * page :=
  main {| taskInput_value := ""; taskList_children := [];
          localStorage := localStorage s; listening := false |}.

(** * Vocabulary of the properties *)

(** ** The sequence and the store *)

(** The stored value of the key [tasks]. *)
Definition persisted (s : page) : option string := items (localStorage s) !! "tasks".

(** What [saveTasks] stores for a sequence of tasks. *)
Definition serialise (ts : list task) : string :=
  JSON_stringify (JArray (task_json <$> ts)).

(** The store holds the list as the page shows it. *)
Definition in_sync (s : page) : Prop :=
  ∃ ts, tasks_of (taskList_children s) = Some ts ∧ persisted s = Some (serialise ts).





(** The page after [setItem('tasks', v)]. *)
Definition stored (v : string) (s : page) : page :=
  set_localStorage {| items := <["tasks" := v]> (items (localStorage s));
                      writes := S (writes (localStorage s)) |} s.

Definition flip (t : task) : task :=
  {| text := text t; completed := negb (completed t) |}.

(** The completed flags of the tasks, in display order. *)
Definition flags (s : page) : option (list bool) :=
  (λ ts : list task, completed <$> ts) <$> tasks_of (taskList_children s).

(** A task that is not completed. *)
Definition plain (x : string) : task := {| text := x; completed := false |}.

(** The release of the Enter key. *)
Definition Enter : Event := {| key := Some "Enter" |}.

(** ** Text without markup *)

Definition is_markup_char (c : ascii) : bool :=
  (c =? "&")%char || (c =? "<")%char || (c =? "000")%char.

(** Text in which the parser sees character data only. *)
Fixpoint markup_free (s : string) : bool :=
  match s with
  | "" => true
  | String c r => negb (is_markup_char c) && markup_free r
  end.

(** Text that the page renders as it is: no markup, and white space only as
    single spaces between words. *)
Definition plain_text (t : string) : Prop :=
  markup_free t = true ∧ collapse_ws t = t.

Definition text_nodes (t : string) : list node :=
  match t with
  | "" => []
  | _ => [Text t]
  end.

Definition indent16 : string := String "010" "                ".
Definition indent12 : string := String "010" "            ".

(** The children of an item whose text has no markup. *)
Definition item_tree (t : string) : list node :=
  [Text indent16; Element "span" [] (text_nodes t);
   Text indent16; Element "button" [("class", "deleteBtn")] [Text "Delete"];
   Text indent16; Element "button" [("class", "completeBtn")] [Text "Complete"];
   Text indent12].

(** The item that [addTask] and [loadTasks] build from text without
    markup. *)
Definition plain_item (t : string) (classes : list string) : li :=
  {| li_children := item_tree t; li_classList := classes; li_draggable := true |}.

(** The item that [loadTasks] builds for a stored task. *)
Definition restored (t : task) : li :=
  plain_item (text t) (if completed t then ["completed"] else []).

(** ** Reorder *)

(** The value of a finite Number, as a rational. *)
Definition exact (x : number) : Q :=
  match x with
  | SpecFloat.S754_finite neg m e =>
      Qmult (inject_Z (if neg then Zneg m else Zpos m)) (Qpower (inject_Z 2) e)
  | _ => inject_Z 0
  end.

(** The pointer is above the middle of the drop target, [top] plus half of
    [clientHeight], when nothing is rounded. *)
Definition above_exact_middle (event : DragEvent) : Prop :=
  Qlt (exact (clientY event))
      (Qplus (exact (box_top event))
             (Qdiv (inject_Z (box_clientHeight event)) (inject_Z 2))).

(** The place of the [t]-th child among the others once the [d]-th has been
    taken out. *)
Definition place_without (d t : nat) : nat := if decide (d < t) then t - 1 else t.

(** The children of the list after line 193 has taken [drag-over] off the
    target. *)
Definition after_drag_over (e : element) (l : list li) : list li :=
  match e with
  | Item i => alter (classList_remove "drag-over") i l
  | _ => l
  end.

(** The reference child that lines 206 to 210 select, in a list of [n]
    items. *)
Definition drop_reference (event : DragEvent) (n t : nat) : option nat :=
  if above_midpoint event then Some t
  else if decide (S t < n) then Some (S t) else None.

(** The reference that lines 206 to 210 hand to [insertBefore] for the drop
    target [t]: the target, or its next sibling. *)
Definition drop_child (event : DragEvent) (l : list li) (t : element) : option element :=
  if above_midpoint event then Some t else nextElementSibling_of l t.

(** A reference as [insertBefore] takes it: the position of a child of the
    list, or [null]; no position for an element that is not a child of the
    list. *)
Definition child_index (child : option element) : option (option nat) :=
  match child with
  | None => Some None
  | Some (Item t) => Some (Some t)
  | Some _ => None
  end.

(** ** Operations and the pages they reach *)



(** What the user and the browser can do to the page: an edit of the input
    field, and the events that reach a listener of the script.  A click on
    the Delete or the Complete control of the [i]-th item reaches the
    listener that lines 47 and 48, or 138 and 139, have put there. *)
Inductive input :=
| Edit (v : string)
| ClickAdd
| Keyup (k : string)
| ClickDelete (i : nat)
| ClickComplete (i : nat)
| DragEnter (event : DragEvent)
| DragLeave (event : DragEvent)
| Drop (event : DragEvent).

Definition dispatch (i : input) : js unit :=
  match i with
  | Edit v => modify (set_taskInput_value v)
  | ClickAdd => addTask {| key := None |}
  | Keyup k => addTask {| key := Some k |}
  | ClickDelete i => click deleteBtn deleteTask i
  | ClickComplete i => click completeBtn toggleComplete i
  | DragEnter event => handleDragEnter event
  | DragLeave event => handleDragLeave event
  | Drop event => handleDrop event
  end.

(** The clicks on the controls of an item: their listeners are put there
    when the item is built, by [addTask] or by [loadTasks], so they run
    whether or not lines 11 to 17 were reached. *)
Definition item_click (i : input) : bool :=
  match i with
  | ClickDelete _ | ClickComplete _ => true
  | _ => false
  end.

(** A page is reached by loading it over some store and then handling
    inputs; the handlers of lines 11 to 17 run only if they were
    registered. *)
Inductive reachable : page → Prop :=
| reach_load (st : storage) :
    reachable (main {| taskInput_value := ""; taskList_children := [];
                       localStorage := st; listening := false |}).2
| reach_input (s : page) (i : input) :
    reachable s →
    reachable (if listening s || item_click i then (dispatch i s).2
               else match i with Edit v => set_taskInput_value v s | _ => s end).

(** The item has a span, so [saveTasks] can read its text. *)
Definition has_span (x : li) : Prop := is_Some (task_of_item x).

Definition spans (s : page) : Prop := Forall has_span (taskList_children s).

(** A computation that keeps every item with its span, also when it
    throws. *)
Definition keeps {A} (m : js A) : Prop := ∀ s, spans s → spans (m s).2.

(** ** Pages and events of the examples *)

(** The list [A, B, C], nothing stored. *)
Definition three_items : page :=
  set_children [createElement_li (item_markup "A"); createElement_li (item_markup "B");
                createElement_li (item_markup "C")] empty_page.

(** [A] dragged onto [C], released below the middle of [C]. *)
Definition drop_A_on_C : DragEvent :=
  {| target := Inside 2 [1]; clientY := of_Z 95; dataTransfer_text := "A";
     box_top := of_Z 80; box_clientHeight := 20 |}.

(** [C] dragged onto [A], released above the middle of [A]. *)
Definition drop_C_on_A : DragEvent :=
  {| target := Item 0; clientY := of_Z 45; dataTransfer_text := "C";
     box_top := of_Z 40; box_clientHeight := 20 |}.

(** The list [A, B], nothing stored. *)
Definition two_items : page :=
  set_children [createElement_li (item_markup "A"); createElement_li (item_markup "B")]
    empty_page.

(** [A] dragged onto [B] with the pointer at 10.1, the top of [B] at 0.1
    and its height 20. *)
Definition drop_near_middle : DragEvent :=
  {| target := Item 1; clientY := of_literal "10.1"; dataTransfer_text := "A";
     box_top := of_literal "0.1"; box_clientHeight := 20 |}.

(** An item as a browser builds it for the text [<li>x]: the [li] of the
    text lies in the span, stops the end tag of the span and holds the rest
    of the template. *)
Definition item_with_li : li :=
  {| li_children :=
       [Text indent16;
        Element "span" []
          [Element "li" []
             [Text ("x" +:+ indent16);
              Element "button" [("class", "deleteBtn")] [Text "Delete"];
              Text indent16;
              Element "button" [("class", "completeBtn")] [Text "Complete"];
              Text indent12]]];
     li_classList := [];
     li_draggable := true |}.

(** The list of [A] and of that item, nothing stored. *)
Definition with_inner_li : page :=
  set_children [plain_item "A" []; item_with_li] empty_page.

(** [A] dropped on the Delete control of the second item, with the pointer
    at [y]. *)
Definition drop_on_inner (y : Z) : DragEvent :=
  {| target := Inside 1 [1; 0; 1]; clientY := of_Z y; dataTransfer_text := "A";
     box_top := of_Z 0; box_clientHeight := 20 |}.

(** A page that is about to load, with [v] stored under [tasks]. *)
Definition with_stored (v : string) : page :=
  {| taskInput_value := ""; taskList_children := [];
     localStorage := {| items := {["tasks" := v]}; writes := 0 |}; listening := false |}.

(** ** Auxiliary definitions of the proofs *)

Definition bool_token (b : bool) : token := if b then TTrue else TFalse.

(** The tokens of one serialised task. *)
Definition task_tokens (t : task) : list token :=
  [TLBrace; TStr "text"; TColon; TStr (text t); TComma;
   TStr "completed"; TColon; bool_token (completed t); TRBrace].

Definition more_tokens (ts : list task) : list token :=
  ts ≫= λ t, TComma :: task_tokens t.

(** The tokens of a serialised sequence. *)
Definition tasks_tokens (ts : list task) : list token :=
  match ts with
  | [] => [TLBracket; TRBracket]
  | t :: r => TLBracket :: task_tokens t ++ more_tokens r ++ [TRBracket]
  end.

Fixpoint push_text (s : string) (l : list node) : list node :=
  match s with
  | "" => l
  | String c r => push_text r (push_char c l)
  end.

Fixpoint first_element (l : list node) : option string :=
  match l with
  | [] => None
  | Element n _ _ :: _ => Some n
  | _ :: r => first_element r
  end.

(** The name of the first element among the children of the context
    element, an element still open counting as one. *)
Definition lead (b : builder) : option string :=
  match first_element (reverse (rev_top b)) with
  | Some n => Some n
  | None => oe_name <$> last (stack b)
  end.

(** The node that the path [q] leads to from the node [n], which the empty
    path leaves at [n]. *)
Definition descend (n : node) (q : list nat) : option node :=
  match q with
  | [] => Some n
  | _ => node_at (children_of n) q
  end.

(** The path [q] among nodes that come after [k] others. *)
Definition shift (k : nat) (q : list nat) : list nat :=
  match q with
  | [] => []
  | j :: r => k + j :: r
  end.

(** ** Writes and growth *)

(** The store after one more [setItem] under [tasks]. *)
Definition wrote_once (st st' : storage) : Prop :=
  ∃ v, st' = {| items := <["tasks" := v]> (items st); writes := S (writes st) |}.

(** A computation that leaves the store alone, also when it throws. *)
Definition quiet {A} (m : js A) : Prop := ∀ s, localStorage (m s).2 = localStorage s.

(** A computation that calls [setItem] at most once, and then under
    [tasks]. *)
Definition writes_at_most_once {A} (m : js A) : Prop :=
  ∀ s, localStorage (m s).2 = localStorage s
       ∨ wrote_once (localStorage s) (localStorage (m s).2).

(** [s'] is [s] with items added at the end of the list and nothing else
    changed but, possibly, the registration of the handlers. *)
Definition extends (s s' : page) : Prop :=
  localStorage s' = localStorage s
  ∧ taskInput_value s' = taskInput_value s
  ∧ ∃ added, taskList_children s' = taskList_children s ++ added.

(** A computation that only adds items at the end of the list. *)
Definition appends_only {A} (m : js A) : Prop := ∀ s, extends s (m s).2.

(** The list [milk, eggs, tea], the second task completed, nothing
    stored. *)
Definition shopping : page :=
  set_children [plain_item "milk" []; plain_item "eggs" ["completed"];
                plain_item "tea" []] empty_page.

Definition shopping_tasks : list task :=
  [plain "milk"; {| text := "eggs"; completed := true |}; plain "tea"].

(** The outcome [r] of a handler on [s]: it returned, and the sequence of
    tasks, the number of items, the store and the input field are those of
    [s]. *)
Definition only_highlight (s : page) (r : completion unit * page) : Prop :=
  r.1 = Normal ()
  ∧ tasks_of (taskList_children r.2) = tasks_of (taskList_children s)
  ∧ length (taskList_children r.2) = length (taskList_children s)
  ∧ localStorage r.2 = localStorage s
  ∧ taskInput_value r.2 = taskInput_value s.

(** A drop of text from elsewhere onto the second item. *)
Definition drop_foreign : DragEvent :=
  {| target := Item 1; clientY := of_Z 0; dataTransfer_text := "coffee";
     box_top := of_Z 0; box_clientHeight := 20 |}.

(** A [dragenter] on the first item. *)
Definition enter_first : DragEvent :=
  {| target := Item 0; clientY := of_Z 0; dataTransfer_text := "";
     box_top := of_Z 0; box_clientHeight := 20 |}.

(** A stored array whose entries are the tasks [ts], then [null], then
    [rest]. *)
Definition broken_array (ts : list task) (rest : list json) : json :=
  JArray ((task_json <$> ts) ++ JNull :: rest).

(** A page that is about to load the array of one task [A] followed by
    [null]. *)
Definition with_null_entry : page :=
  with_stored ("[" +:+ JSON_stringify (task_json (plain "A")) +:+ ",null]").


(** The page after a load over an empty store and two adds: of the text
    [A], then of the text [<span>]. *)
Definition after_span_add : page :=
  (dispatch (Keyup "Enter") (dispatch (Edit "<span>")
     (dispatch (Keyup "Enter") (dispatch (Edit "A") (main empty_page).2).2).2).2).2.

(** A computation that keeps [P] true of the page, also when it throws. *)
Definition preserves (P : page → Prop) {A} (m : js A) : Prop := ∀ s, P s → P (m s).2.

(** The page is [s] with one item after its last. *)
Definition one_more (s s' : page) : Prop :=
  localStorage s' = localStorage s
  ∧ taskInput_value s' = taskInput_value s
  ∧ ∃ x, taskList_children s' = taskList_children s ++ [x].

(** * Properties *)

(** ** Strings *)

Module StringFacts.

Lemma sapp_nil_l (s : string) : "" +:+ s = s.
Proof. reflexivity. Qed.

Lemma sapp_cons (c : ascii) (s t : string) : String c s +:+ t = String c (s +:+ t).
Proof. reflexivity. Qed.

Lemma sapp_nil_r (s : string) : s +:+ "" = s.
Proof. induction s as [|c s IH]; [reflexivity|]. rewrite sapp_cons. by f_equal. Qed.

Lemma sapp_assoc (a b c : string) : (a +:+ b) +:+ c = a +:+ (b +:+ c).
Proof.
  induction a as [|x a IH]; [reflexivity|].
  rewrite !sapp_cons. by f_equal.
Qed.

Lemma snoc_app (buf : string) (c : ascii) (r : string) :
  snoc buf c +:+ r = buf +:+ String c r.
Proof. unfold snoc. by rewrite sapp_assoc. Qed.

End StringFacts.

(** ** Numbers: rounding and printing at the edges *)

(** A conjunction of closed equations, each settled by evaluation. *)
Ltac evaluate :=
  repeat (lazymatch goal with |- _ ∧ _ => split; [vm_compute; reflexivity|] end);
  vm_compute; reflexivity.

Module NumberFacts.

(** A literal below half of the least positive Number is zero; the least
    positive Number is not. *)
Lemma of_literal_underflow :
  is_zero_or_nan (of_literal "1e-400") = true
  ∧ is_zero_or_nan (of_literal "-0") = true
  ∧ is_zero_or_nan (of_literal "2.4703282292062327e-324") = true
  ∧ is_zero_or_nan (of_literal "2.4703282292062328e-324") = false
  ∧ is_finite (of_literal "1e400") = false.
Proof. evaluate. Qed.

(** A Number is printed by its shortest decimal, not by its literal. *)
Lemma toString_shortest :
  toString (of_literal "1.0") = "1"
  ∧ toString (of_literal "1e2") = "100"
  ∧ toString (of_literal "-0") = "0"
  ∧ toString (of_literal "0.1") = "0.1"
  ∧ toString (of_literal "0.30000000000000004") = "0.30000000000000004"
  ∧ toString (of_literal "9007199254740993") = "9007199254740992"
  ∧ toString (of_literal "1e21") = "1e+21"
  ∧ toString (of_literal "123456789012345680000") = "123456789012345680000"
  ∧ toString (of_literal "0.000001") = "0.000001"
  ∧ toString (of_literal "1e-7") = "1e-7"
  ∧ toString (of_literal "-1.5e-10") = "-1.5e-10"
  ∧ toString (of_literal "5e-324") = "5e-324"
  ∧ toString (of_literal "1.7976931348623157e308") = "1.7976931348623157e+308".
Proof. evaluate. Qed.

(** An entry whose members are numbers: the text is the printed Number and
    a [completed] that rounds to zero leaves the task not completed. *)
Lemma restore_item_numbers :
  let entry := JObject [("text", JNumber (of_literal "1.0"));
                        ("completed", JNumber (of_literal "1e-400"))] in
  fst (restore_item entry empty_page) = Normal ()
  ∧ tasks_of (taskList_children (snd (restore_item entry empty_page))) = Some [plain "1"].
Proof. split; vm_compute; reflexivity. Qed.

End NumberFacts.

(** ** JSON: reading back what [JSON.stringify] wrote *)

Module JsonFacts.
Import StringFacts.

Lemma lex_run_app (l : lexer) (a b : string) :
  lex_run l (a +:+ b) = lex_run (lex_run l a) b.
Proof.
  revert l. induction a as [|c a IH]; intros l; [reflexivity|].
  rewrite sapp_cons. cbn [lex_run]. apply IH.
Qed.

(** Each escape is read back as the character it stands for. *)
Lemma lex_quote_char (c : ascii) (buf : string) (out : list token) :
  lex_run (LStr buf, out) (quote_char c) = (LStr (snoc buf c), out).
Proof. destruct c as [[] [] [] [] [] [] [] []]; reflexivity. Qed.

Lemma lex_quote_body (s buf : string) (out : list token) :
  lex_run (LStr buf, out) (quote_body s) = (LStr (buf +:+ s), out).
Proof.
  revert buf. induction s as [|c s IH]; intros buf.
  - by rewrite sapp_nil_r.
  - cbn [quote_body]. rewrite lex_run_app, lex_quote_char, IH. by rewrite snoc_app.
Qed.

Lemma lex_quote (s : string) (out : list token) :
  lex_run (LIdle, out) (quote s) = (LIdle, TStr s :: out).
Proof.
  unfold quote. cbn [lex_run]. change (lstep (LIdle, out) dquote) with (LStr "", out).
  by rewrite lex_run_app, lex_quote_body.
Qed.

Lemma lex_task (t : task) (out : list token) :
  lex_run (LIdle, out) (JSON_stringify (task_json t))
  = (LIdle, reverse (task_tokens t) ++ out).
Proof.
  cbn [JSON_stringify task_json map join fst snd].
  rewrite !lex_run_app. cbn [lex_run].
  change (lstep (LIdle, out) "{") with (LIdle, TLBrace :: out).
  rewrite lex_quote. cbn [lex_run].
  change (lstep (LIdle, ?o) ":") with (LIdle, TColon :: o).
  rewrite lex_quote. cbn [lex_run].
  change (lstep (LIdle, ?o) ",") with (LIdle, TComma :: o).
  rewrite lex_quote. cbn [lex_run].
  change (lstep (LIdle, ?o) ":") with (LIdle, TColon :: o).
  by destruct t as [x []].
Qed.

Lemma lex_more (ts : list task) (t : task) (out : list token) :
  lex_run (LIdle, out) (join "," (map JSON_stringify (task_json <$> (t :: ts))))
  = (LIdle, reverse (task_tokens t ++ more_tokens ts) ++ out).
Proof.
  revert t out. induction ts as [|t' ts IH]; intros t out.
  - cbn [fmap list_fmap map join]. rewrite lex_task.
    unfold more_tokens. by cbn.
  - change (join "," (map JSON_stringify (task_json <$> t :: t' :: ts)))
      with (JSON_stringify (task_json t) +:+ "," +:+
            join "," (map JSON_stringify (task_json <$> t' :: ts))).
    rewrite !lex_run_app, lex_task. cbn [lex_run].
    change (lstep (LIdle, ?o) ",") with (LIdle, TComma :: o).
    rewrite IH. f_equal.
    change (more_tokens (t' :: ts)) with ((TComma :: task_tokens t') ++ more_tokens ts).
    rewrite !reverse_app, reverse_cons. by rewrite <- !(assoc_L (++)).
Qed.

Lemma lex_tasks (ts : list task) :
  JSON_lex (JSON_stringify (JArray (task_json <$> ts))) = Some (tasks_tokens ts).
Proof.
  unfold JSON_lex. destruct ts as [|t r]; [reflexivity|].
  cbn [JSON_stringify]. rewrite !lex_run_app. cbn [lex_run].
  change (lstep (LIdle, []) "[") with (LIdle, [TLBracket]).
  rewrite lex_more. cbn [lex_run lex_finish].
  change (lstep (LIdle, ?o) "]") with (LIdle, TRBracket :: o).
  cbn [lex_finish]. f_equal. unfold tasks_tokens.
  rewrite reverse_cons, reverse_app, reverse_involutive.
  by cbn.
Qed.

Lemma parse_task (t : task) (items : list json) (k : list frame) (rest : list token) :
  foldl pstep (SValue (FArr items :: k)) (task_tokens t ++ rest)
  = foldl pstep (SArrNext (task_json t :: items) k) rest.
Proof. by destruct t as [x []]. Qed.

Lemma parse_more (r : list task) (items : list json) :
  foldl pstep (SArrNext items []) (more_tokens r ++ [TRBracket])
  = SDone (JArray (reverse items ++ (task_json <$> r))).
Proof.
  revert items. induction r as [|t r IH]; intros items.
  - cbn. by rewrite app_nil_r.
  - change (more_tokens (t :: r)) with ((TComma :: task_tokens t) ++ more_tokens r).
    rewrite <- (assoc_L (++)). cbn [app foldl pstep].
    rewrite parse_task, IH, reverse_cons. by rewrite <- (assoc_L (++)).
Qed.

Lemma parse_tasks_tokens (ts : list task) :
  parse_tokens (tasks_tokens ts) = Some (JArray (task_json <$> ts)).
Proof.
  unfold parse_tokens. destruct ts as [|t r]; [reflexivity|].
  unfold tasks_tokens. cbn [foldl pstep pvalue].
  change (foldl pstep (SArrStart []) (task_tokens t ++ more_tokens r ++ [TRBracket]))
    with (foldl pstep (SValue [FArr []]) (task_tokens t ++ more_tokens r ++ [TRBracket])).
  by rewrite parse_task, parse_more.
Qed.

(** [JSON.parse] undoes [JSON.stringify] on every array of tasks. *)
Lemma parse_stringify_tasks (ts : list task) :
  JSON_parse (JSON_stringify (JArray (task_json <$> ts))) = Some (JArray (task_json <$> ts)).
Proof. unfold JSON_parse. rewrite lex_tasks. apply parse_tasks_tokens. Qed.

End JsonFacts.

(** ** HTML: an item built from text without markup *)

Module HtmlFacts.
Import StringFacts.

Lemma hrun_app (p : parser) (a b : string) :
  hrun p (a +:+ b) = hrun (hrun p a) b.
Proof.
  revert p. induction a as [|c a IH]; intros p; [reflexivity|].
  rewrite sapp_cons. cbn [hrun]. apply IH.
Qed.

Lemma data_step_plain (c : ascii) (b : builder) :
  is_markup_char c = false → data_step c b = (HData, emit_char c b).
Proof.
  unfold is_markup_char, data_step. intros H%orb_false_elim.
  destruct H as [[-> ->]%orb_false_elim ->]. done.
Qed.

Lemma hrun_plain (t : string) (b : builder) :
  markup_free t = true → hrun (HData, b) t = (HData, emit_text t b).
Proof.
  revert b. induction t as [|c t IH]; intros b H; [reflexivity|].
  cbn [markup_free] in H. apply andb_true_iff in H as [Hc Ht].
  apply negb_true_iff in Hc.
  cbn [hrun hstep emit_text]. rewrite (data_step_plain _ _ Hc). by apply IH.
Qed.

Lemma emit_text_open (t : string) (top : list node) (o : open_element) (k : list open_element) :
  emit_text t {| rev_top := top; stack := o :: k |}
  = {| rev_top := top;
       stack := {| oe_name := oe_name o; oe_attrs := oe_attrs o;
                   oe_rev_children := push_text t (oe_rev_children o) |} :: k |}.
Proof.
  revert o. induction t as [|c t IH]; intros o; [by destruct o|].
  cbn [emit_text push_text]. unfold emit_char. cbn [stack rev_top]. by rewrite IH.
Qed.

Lemma push_text_onto (t s : string) (l : list node) :
  push_text t (Text s :: l) = Text (s +:+ t) :: l.
Proof.
  revert s. induction t as [|c t IH]; intros s; cbn [push_text push_char].
  - by rewrite sapp_nil_r.
  - by rewrite IH, snoc_app.
Qed.

Lemma push_text_nil (t : string) : push_text t [] = text_nodes t.
Proof.
  destruct t as [|c t]; [reflexivity|].
  cbn [push_text push_char]. by rewrite push_text_onto.
Qed.

(** On text without markup the template yields a span that holds the text,
    followed by the two buttons. *)
Lemma parse_item_markup (t : string) :
  markup_free t = true → parse_fragment (item_markup t) = item_tree t.
Proof.
  intros H. unfold parse_fragment, item_markup.
  rewrite !hrun_app.
  set (p0 := hrun (hrun (HData, empty_builder) newline) "                <span>").
  assert (Hp0 : p0 = (HData, {| rev_top := [Text indent16];
             stack := [{| oe_name := "span"; oe_attrs := []; oe_rev_children := [] |}] |}))
    by reflexivity.
  rewrite Hp0, (hrun_plain _ _ H), emit_text_open. cbn [oe_name oe_attrs oe_rev_children].
  rewrite push_text_nil.
  destruct t as [|c t]; vm_compute; reflexivity.
Qed.

Lemma item_tree_span (t : string) :
  find_among (by_tag "span") (item_tree t) = Some (Element "span" [] (text_nodes t)).
Proof. reflexivity. Qed.

Lemma item_tree_deleteBtn (t : string) :
  find_among (by_class "deleteBtn") (item_tree t)
  = Some (Element "button" [("class", "deleteBtn")] [Text "Delete"]).
Proof. destruct t; reflexivity. Qed.

Lemma item_tree_completeBtn (t : string) :
  find_among (by_class "completeBtn") (item_tree t)
  = Some (Element "button" [("class", "completeBtn")] [Text "Complete"]).
Proof. destruct t; reflexivity. Qed.

Lemma node_ind_nested (P : node → Prop) :
  (∀ s, P (Text s)) → P Comment →
  (∀ name attrs children, Forall P children → P (Element name attrs children)) →
  ∀ n, P n.
Proof.
  intros HT HC HE. fix IH 1. intros [s| |name attrs children]; [apply HT | apply HC |].
  apply HE. induction children as [|x r IHr]; constructor; [apply IH | apply IHr].
Qed.

Lemma find_in_element (p : string → list (string * string) → bool)
    (name : string) (attrs : list (string * string)) (children : list node) :
  find_in p (Element name attrs children)
  = if p name attrs then Some (Element name attrs children) else find_among p children.
Proof.
  cbn [find_in]. destruct (p name attrs); [done|].
  induction children as [|x r IH]; [done|]. cbn [find_among].
  destruct (find_in p x); [done | apply IH].
Qed.

Lemma path_in_element (p : string → list (string * string) → bool)
    (name : string) (attrs : list (string * string)) (children : list node) :
  path_in p (Element name attrs children)
  = if p name attrs then Some [] else path_among p children 0.
Proof.
  cbn [path_in]. destruct (p name attrs); [done|]. generalize 0.
  induction children as [|x r IH]; intros k; [done|]. cbn [path_among].
  destruct (path_in p x); [done | apply IH].
Qed.

Lemma path_among_shift (p : string → list (string * string) → bool) (l : list node) (k : nat) :
  path_among p l k = shift k <$> path_among p l 0.
Proof.
  revert k. induction l as [|x r IH]; intros k; [done|]. cbn [path_among].
  destruct (path_in p x) as [q|]; [cbn; by rewrite Nat.add_0_r|].
  rewrite (IH (S k)), (IH 1). destruct (path_among p r 0) as [[|j q]|]; cbn; [done| |done].
  do 2 f_equal. lia.
Qed.

Lemma path_among_nonempty (p : string → list (string * string) → bool) (l : list node) (k : nat) :
  path_among p l k ≠ Some [].
Proof.
  revert k. induction l as [|x r IH]; intros k; [done|]. cbn [path_among].
  destruct (path_in p x); [done | apply IH].
Qed.

Lemma path_in_found (p : string → list (string * string) → bool) (n : node) (q : list nat) :
  path_in p n = Some q → is_Some (find_in p n).
Proof.
  revert q. induction n as [s| |name attrs children IH] using node_ind_nested; [done..|].
  intros q. rewrite find_in_element, path_in_element. destruct (p name attrs); [by eauto|].
  generalize 0. induction IH as [|x r Hx _ IHr]; intros k; [done|].
  cbn [find_among path_among]. destruct (path_in p x) as [q'|].
  - intros _. destruct (Hx q' eq_refl) as [e ->]. by eauto.
  - intros Hr. destruct (find_in p x); [by eauto | by eapply IHr].
Qed.

Lemma path_in_find (p : string → list (string * string) → bool) (n : node) :
  find_in p n = path_in p n ≫= descend n.
Proof.
  induction n as [s| |name attrs children IH] using node_ind_nested; [done..|].
  rewrite find_in_element, path_in_element. destruct (p name attrs); [done|].
  transitivity (path_among p children 0 ≫= node_at children).
  2: { pose proof (path_among_nonempty p children 0).
       by destruct (path_among p children 0) as [[|j q]|]. }
  induction IH as [|x r Hx _ IHr]; [done|]. cbn [find_among path_among].
  destruct (path_in p x) as [q|] eqn:Hq; cbn [mbind option_bind].
  - destruct (path_in_found p x q Hq) as [e He]. rewrite He in Hx |- *.
    cbn in Hx. rewrite Hx. unfold descend. cbn. by destruct q.
  - rewrite Hx. cbn [mbind option_bind]. rewrite IHr, (path_among_shift p r 1).
    destruct (path_among p r 0) as [[|j q]|]; cbn; done.
Qed.

(** [path_among] gives the place of the node that [find_among] returns. *)
Lemma path_among_find (p : string → list (string * string) → bool) (l : list node) :
  find_among p l = path_among p l 0 ≫= node_at l.
Proof.
  induction l as [|x r IH]; [done|]. cbn [find_among path_among].
  rewrite path_in_find. destruct (path_in p x) as [q|] eqn:Hq; cbn [mbind option_bind].
  - destruct (path_in_found p x q Hq) as [e He]. rewrite path_in_find, Hq in He.
    cbn in He. rewrite He. rewrite <- He. unfold descend. cbn. by destruct q.
  - rewrite IH, (path_among_shift p r 1).
    destruct (path_among p r 0) as [[|j q]|]; cbn; done.
Qed.

Lemma innerText_span (t : string) :
  innerText (Element "span" [] (text_nodes t)) = collapse_ws t.
Proof.
  unfold innerText. destruct t as [|c t]; [reflexivity|].
  cbn [textContent text_nodes]. by rewrite sapp_nil_r.
Qed.

End HtmlFacts.

Import HtmlFacts.

(** ** The handlers *)

Ltac js_unfold :=
  unfold setItem, getItem; unfold mbind, js_bind, mret, js_ret, gets, modify, throw.

Lemma saveTasks_ok (s : page) (ts : list task) :
  tasks_of (taskList_children s) = Some ts →
  saveTasks s = (Normal (), stored (serialise ts) s).
Proof. intros H. unfold saveTasks. js_unfold. by rewrite H. Qed.

Lemma saveTasks_inv (s s' : page) :
  saveTasks s = (Normal (), s') →
  ∃ ts, tasks_of (taskList_children s) = Some ts ∧ s' = stored (serialise ts) s.
Proof.
  unfold saveTasks. js_unfold. destruct (tasks_of (taskList_children s)) as [ts|]; [|done].
  intros [= <-]. eauto.
Qed.

Lemma stored_in_sync (s : page) (ts : list task) :
  tasks_of (taskList_children s) = Some ts → in_sync (stored (serialise ts) s).
Proof. intros H. exists ts. split; [done|]. unfold persisted. cbn. apply lookup_insert_eq. Qed.

(** C4. When the trimmed input is empty, [addTask] returns without an error
    and leaves the whole page as it was: the list, the input field and the
    store, whose write count does not move either. *)
Theorem addTask_empty_input_noop (event : Event) (s : page) :
  trim (taskInput_value s) = "" → addTask event s = (Normal (), s).
Proof.
  intros H. unfold addTask. case_bool_decide; [|done].
  js_unfold. rewrite H. done.
Qed.

Lemma addTask_empty_input_noop_witness :
  let s := set_taskInput_value "   " empty_page in
  trim (taskInput_value s) = "" ∧ addTask {| key := Some "Enter" |} s = (Normal (), s).
Proof. split; [reflexivity|]. by apply addTask_empty_input_noop. Defined.

(** C10. An event whose [key] is not [Enter], a click (which has no [key])
    or the release of any other key, makes [addTask] return at once: the
    list, the input field and the store are unchanged. *)
Theorem addTask_requires_Enter (event : Event) (s : page) :
  key event ≠ Some "Enter" → addTask event s = (Normal (), s).
Proof. intros H. unfold addTask. by case_bool_decide. Qed.

Lemma addTask_requires_Enter_witness :
  let click := {| key := None |} in
  let s := set_taskInput_value "buy milk" empty_page in
  key click ≠ Some "Enter" ∧ addTask click s = (Normal (), s).
Proof. split; [done|]. by apply addTask_requires_Enter. Defined.

(** *** The sequence of tasks under the list operations *)

Section tasks_of.
Implicit Types (l : list li) (ts : list task) (x : li) (t : task).

Lemma tasks_of_Forall2 l ts :
  tasks_of l = Some ts ↔ Forall2 (λ x t, task_of_item x = Some t) l ts.
Proof. apply mapM_Some. Qed.

Lemma tasks_of_length l ts : tasks_of l = Some ts → length ts = length l.
Proof. intros H%tasks_of_Forall2. symmetry. by eapply Forall2_length. Qed.

Lemma tasks_of_lookup l ts i x :
  tasks_of l = Some ts → l !! i = Some x →
  ∃ t, ts !! i = Some t ∧ task_of_item x = Some t.
Proof.
  intros H%tasks_of_Forall2 Hx.
  destruct (Forall2_lookup_l _ _ _ _ _ H Hx) as (t & ? & ?). eauto.
Qed.

Lemma tasks_of_snoc l ts x t :
  tasks_of l = Some ts → task_of_item x = Some t → tasks_of (l ++ [x]) = Some (ts ++ [t]).
Proof.
  intros H%tasks_of_Forall2 Hx. apply tasks_of_Forall2, Forall2_app; [done|].
  by repeat constructor.
Qed.

Lemma tasks_of_delete l ts i :
  tasks_of l = Some ts → tasks_of (delete i l) = Some (delete i ts).
Proof. intros H%tasks_of_Forall2. by apply tasks_of_Forall2, Forall2_delete. Qed.

Lemma tasks_of_alter (f : li → li) (g : task → task) l ts i :
  (∀ x t, task_of_item x = Some t → task_of_item (f x) = Some (g t)) →
  tasks_of l = Some ts → tasks_of (alter f i l) = Some (alter g i ts).
Proof.
  intros Hf H%tasks_of_Forall2. apply tasks_of_Forall2, Forall2_alter; [done|].
  intros x t _ _. apply Hf.
Qed.

Lemma tasks_of_alter_id (f : li → li) l i :
  (∀ x, task_of_item (f x) = task_of_item x) →
  tasks_of (alter f i l) = tasks_of l.
Proof.
  intros Hf. unfold tasks_of. rewrite <- (list_fmap_id (alter f i l)).
  revert i. induction l as [|x l IH]; intros [|i]; try done; cbn.
  - rewrite Hf. by rewrite list_fmap_id.
  - specialize (IH i). rewrite list_fmap_id in IH. rewrite list_fmap_id. by rewrite IH.
Qed.

Lemma tasks_of_insertBefore l ts d child :
  tasks_of l = Some ts →
  tasks_of (insertBefore d child l) = Some (insertBefore d child ts).
Proof.
  intros H%tasks_of_Forall2. apply tasks_of_Forall2. unfold insertBefore.
  unfold nextElementSibling. rewrite <- (Forall2_length _ _ _ H).
  destruct (l !! d) as [x|] eqn:Hx.
  - destruct (Forall2_lookup_l _ _ _ _ _ H Hx) as (t & -> & Ht).
    destruct (if bool_decide (child = Some d) then _ else child) as [r|].
    + apply Forall2_app; [by apply Forall2_take, Forall2_delete|].
      constructor; [done|]. by apply Forall2_drop, Forall2_delete.
    + apply Forall2_app; [by apply Forall2_delete|]. by repeat constructor.
  - assert (ts !! d = None) as ->; [|done].
    apply lookup_ge_None. apply lookup_ge_None in Hx.
    by rewrite <- (Forall2_length _ _ _ H).
Qed.

End tasks_of.

(** *** Class lists *)

Lemma contains_toggle (c : string) (x : li) :
  classList_contains c (classList_toggle c x) = negb (classList_contains c x).
Proof.
  unfold classList_toggle, classList_add.
  destruct (classList_contains c x) eqn:Hc; cbn [negb]; unfold classList_contains in *.
  - apply bool_decide_eq_false. cbn. rewrite list_elem_of_filter. tauto.
  - apply bool_decide_eq_true. cbn. rewrite elem_of_app, list_elem_of_singleton. by right.
Qed.

Lemma task_of_toggle (x : li) (t : task) :
  task_of_item x = Some t →
  task_of_item (classList_toggle "completed" x) = Some (flip t).
Proof.
  unfold task_of_item, querySelector.
  assert (li_children (classList_toggle "completed" x) = li_children x) as ->.
  { unfold classList_toggle, classList_add, classList_remove.
    by repeat case_match. }
  destruct (find_among _ _) as [span|]; [|done]. cbn.
  intros [= <-]. unfold flip. cbn. by rewrite contains_toggle.
Qed.

Lemma task_of_remove_other (c : string) (x : li) :
  c ≠ "completed" → task_of_item (classList_remove c x) = task_of_item x.
Proof.
  intros Hc. unfold task_of_item, querySelector, classList_contains. cbn.
  destruct (find_among _ _) as [span|]; [|done]. cbn. do 2 f_equal.
  apply bool_decide_ext. rewrite list_elem_of_filter.
  split; [by intros [_ ?] | intros ?; split; [congruence | done]].
Qed.

Lemma task_of_add_other (c : string) (x : li) :
  c ≠ "completed" → task_of_item (classList_add c x) = task_of_item x.
Proof.
  intros Hc. unfold classList_add. case_match; [done|].
  unfold task_of_item, querySelector, classList_contains. cbn.
  destruct (find_among _ _) as [span|]; [|done]. cbn. do 2 f_equal.
  apply bool_decide_ext. rewrite elem_of_app, list_elem_of_singleton.
  split; [intros [?|?]; [done | congruence] | by left].
Qed.

Lemma task_of_set_draggable (b : bool) (x : li) :
  task_of_item (set_draggable b x) = task_of_item x.
Proof. done. Qed.

Lemma flip_flip (t : task) : flip (flip t) = t.
Proof. destruct t as [x []]; done. Qed.

(** *** Delete and toggle *)

Lemma click_run (btn : li → option (list nat)) (handler : element → js unit)
    (i : nat) (s : page) (x : li) (path : list nat) :
  taskList_children s !! i = Some x → btn x = Some path →
  click btn handler i s = handler (parentElement (Inside i path)) s.
Proof. intros Hx Hb. unfold click. js_unfold. by rewrite Hx; cbn; rewrite Hb. Qed.

Lemma click_idle (btn : li → option (list nat)) (handler : element → js unit)
    (i : nat) (s : page) :
  taskList_children s !! i ≫= btn = None → click btn handler i s = (Normal (), s).
Proof. intros Hb. unfold click. js_unfold. unfold mbind in Hb. by rewrite Hb. Qed.

(** The listeners are on the elements that the queries of lines 43 and 44
    returned. *)
Lemma deleteBtn_querySelector (x : li) :
  deleteBtn x ≫= node_at (li_children x) = querySelector (by_class "deleteBtn") x.
Proof. unfold deleteBtn, querySelector. by rewrite path_among_find. Qed.

Lemma completeBtn_querySelector (x : li) :
  is_Some (querySelector (by_class "deleteBtn") x) →
  completeBtn x ≫= node_at (li_children x) = querySelector (by_class "completeBtn") x.
Proof.
  rewrite <- deleteBtn_querySelector. unfold completeBtn, querySelector.
  destruct (deleteBtn x) as [path|]; [|by intros [? ?]]. intros _.
  cbn [mbind option_bind]. by rewrite path_among_find.
Qed.

(** The controls of an item built from text without markup are children of
    the item. *)
Lemma plain_item_deleteBtn (t : string) (classes : list string) :
  deleteBtn (plain_item t classes) = Some [3].
Proof. by destruct t. Qed.

Lemma plain_item_completeBtn (t : string) (classes : list string) :
  completeBtn (plain_item t classes) = Some [5].
Proof. by destruct t. Qed.

Lemma completeBtn_children (x y : li) :
  li_children y = li_children x → completeBtn y = completeBtn x.
Proof. unfold completeBtn, deleteBtn. by intros ->. Qed.

Lemma deleteTask_outside (e : element) (s : page) :
  (∀ i, e ≠ Item i) → deleteTask e s = (Throw NotFoundError, s).
Proof. intros He. unfold deleteTask, removeChild. js_unfold. destruct e; [by destruct (He i) | done..]. Qed.

Lemma parentElement_child (i k : nat) : parentElement (Inside i [k]) = Item i.
Proof. reflexivity. Qed.

Lemma parentElement_deeper (i k k' : nat) (path : list nat) :
  ∀ j, parentElement (Inside i (k :: k' :: path)) ≠ Item j.
Proof.
  intros j. unfold parentElement, split_last.
  destruct (last (k :: k' :: path)) as [m|]; [|done]. cbn [mbind option_bind].
  replace (length (k :: k' :: path) - 1) with (S (length path)) by (cbn; lia).
  done.
Qed.

(** X18. A click on the Delete control of the [i]-th item, when that control
    is a child of the item (as in every item built from text without
    markup), returns normally; the list is then one shorter, the task at [i]
    is gone, every task before it keeps its place and every task after it
    moves up by one with its text and flag, and the store holds the
    serialised new sequence, written once. *)
Theorem delete_click_removes_target (s : page) (i k : nat) (x : li) (ts : list task) :
  tasks_of (taskList_children s) = Some ts →
  taskList_children s !! i = Some x →
  deleteBtn x = Some [k] →
  ∃ s', dispatch (ClickDelete i) s = (Normal (), s')
    ∧ taskList_children s' = delete i (taskList_children s)
    ∧ S (length (taskList_children s')) = length (taskList_children s)
    ∧ tasks_of (taskList_children s') = Some (delete i ts)
    ∧ (∀ j, j < i → delete i ts !! j = ts !! j)
    ∧ (∀ j, i ≤ j → delete i ts !! j = ts !! S j)
    ∧ persisted s' = Some (serialise (delete i ts))
    ∧ writes (localStorage s') = S (writes (localStorage s))
    ∧ taskInput_value s' = taskInput_value s.
Proof.
  intros Hts Hx Hbtn. pose proof (lookup_lt_Some _ _ _ Hx) as Hi.
  pose proof (tasks_of_delete _ _ i Hts) as Hdel.
  eexists. split.
  { cbn [dispatch]. rewrite (click_run _ _ _ _ _ _ Hx Hbtn), parentElement_child.
    unfold deleteTask, removeChild. js_unfold. rewrite decide_True by done.
    by apply saveTasks_ok. }
  cbn. repeat split; try done.
  - rewrite length_delete by (by apply lookup_lt_is_Some_2). lia.
  - intros j Hj. by apply list_lookup_delete_lt.
  - intros j Hj. by apply list_lookup_delete_ge.
  - apply lookup_insert_eq.
Qed.

Lemma delete_click_removes_target_witness :
  let a := createElement_li (item_markup "A") in
  let b := createElement_li (item_markup "B") in
  let s := set_children [a; b] empty_page in
  ∃ s', dispatch (ClickDelete 0) s = (Normal (), s')
    ∧ tasks_of (taskList_children s') = Some [{| text := "B"; completed := false |}].
Proof.
  intros a b s.
  destruct (delete_click_removes_target s 0 3 a
              [{| text := "A"; completed := false |}; {| text := "B"; completed := false |}])
    as (s' & H & _ & _ & Hts & _); [reflexivity | reflexivity | reflexivity |].
  exists s'. split; [exact H | exact Hts].
Defined.

Lemma after_span_add_reachable : reachable after_span_add.
Proof.
  unfold after_span_add. set (s0 := (main empty_page).2).
  assert (reachable s0) as H0 by apply (reach_load {| items := ∅; writes := 0 |}).
  pose proof (reach_input _ (Edit "A") H0) as H1.
  replace (listening s0) with true in H1 by (vm_compute; reflexivity).
  pose proof (reach_input _ (Keyup "Enter") H1) as H2.
  replace (listening (dispatch (Edit "A") s0).2) with true in H2 by (vm_compute; reflexivity).
  pose proof (reach_input _ (Edit "<span>") H2) as H3.
  replace (listening (dispatch (Keyup "Enter") (dispatch (Edit "A") s0).2).2) with true in H3
    by (vm_compute; reflexivity).
  pose proof (reach_input _ (Keyup "Enter") H3) as H4.
  replace (listening (dispatch (Edit "<span>")
             (dispatch (Keyup "Enter") (dispatch (Edit "A") s0).2).2).2) with true in H4
    by (vm_compute; reflexivity).
  exact H4.
Qed.

(** C6. The delete fails on a task whose text opens an element.  After the
    adds of [A] and of [<span>] the controls of the second item lie inside
    the span that the text has left open; line 62 takes that span for the
    item, [removeChild] refuses it with [NotFoundError], and the click
    leaves the list and the store as they were: nothing is removed and
    nothing is stored. *)
Theorem deleteTask_control_inside_span :
  reachable after_span_add
  ∧ length (taskList_children after_span_add) = 2
  ∧ taskList_children after_span_add !! 1 ≫= deleteBtn = Some [1; 2]
  ∧ dispatch (ClickDelete 1) after_span_add = (Throw NotFoundError, after_span_add)
  ∧ in_sync after_span_add.
Proof.
  split; [apply after_span_add_reachable|].
  split; [vm_compute; reflexivity|]. split; [vm_compute; reflexivity|]. split.
  - vm_compute. reflexivity.
  - eexists. split; [vm_compute; reflexivity|]. vm_compute. reflexivity.
Qed.

(** X19. A click on the Complete control of the [i]-th item, when that
    control is a child of the item, returns normally, flips the completed
    flag of that task and of no other, keeps every text, and writes the
    serialised sequence to the store.  A second click restores the sequence
    and writes again: the stored value is then the serialisation of the
    sequence before the first click, and the store is the one before the
    first click whenever it held the list then. *)
Theorem complete_click_twice (s : page) (i k : nat) (x : li) (t : task) (ts : list task) :
  tasks_of (taskList_children s) = Some ts →
  taskList_children s !! i = Some x →
  completeBtn x = Some [k] →
  ts !! i = Some t →
  ∃ s1 s2,
    dispatch (ClickComplete i) s = (Normal (), s1)
    ∧ dispatch (ClickComplete i) s1 = (Normal (), s2)
    ∧ tasks_of (taskList_children s1) = Some (<[i := flip t]> ts)
    ∧ persisted s1 = Some (serialise (<[i := flip t]> ts))
    ∧ writes (localStorage s1) = S (writes (localStorage s))
    ∧ tasks_of (taskList_children s2) = Some ts
    ∧ persisted s2 = Some (serialise ts)
    ∧ writes (localStorage s2) = S (S (writes (localStorage s)))
    ∧ (persisted s = Some (serialise ts) →
       items (localStorage s2) = items (localStorage s)).
Proof.
  intros Hts Hx Hbtn Ht.
  pose proof (tasks_of_alter _ _ _ _ i task_of_toggle Hts) as H1.
  pose proof (tasks_of_alter _ _ _ _ i task_of_toggle H1) as H2.
  assert (alter flip i ts = <[i := flip t]> ts) as E1.
  { apply list_eq. intros j. destruct (decide (i = j)) as [<-|].
    - rewrite list_lookup_alter_eq, Ht, list_lookup_insert_eq; [done|].
      by eapply lookup_lt_Some.
    - by rewrite list_lookup_alter_ne, list_lookup_insert_ne. }
  assert (alter flip i (alter flip i ts) = ts) as E2.
  { rewrite list_alter_alter_eq. apply list_alter_id. intros y. apply flip_flip. }
  rewrite E2 in H2. rewrite E1 in H1.
  assert (∀ s0 y, taskList_children s0 !! i = Some y → li_children y = li_children x →
            dispatch (ClickComplete i) s0 = toggleComplete (Item i) s0) as Hclick.
  { intros s0 y Hy Hc. cbn [dispatch].
    rewrite (click_run _ _ _ _ _ [k] Hy); [done|].
    by rewrite (completeBtn_children x y Hc). }
  eexists _, _. split; [|split].
  { rewrite (Hclick s x Hx eq_refl).
    unfold toggleComplete, update_element. js_unfold. by apply saveTasks_ok. }
  { rewrite (Hclick _ (classList_toggle "completed" x)).
    - unfold toggleComplete, update_element. js_unfold. by apply saveTasks_ok.
    - cbn [taskList_children stored set_localStorage set_children].
      by rewrite list_lookup_alter_eq, Hx.
    - unfold classList_toggle, classList_add, classList_remove. by repeat case_match. }
  cbn. repeat split; try done.
  - apply lookup_insert_eq.
  - apply lookup_insert_eq.
  - unfold persisted. intros Hs. rewrite insert_insert_eq. by apply insert_id.
Qed.

Lemma complete_click_twice_witness :
  let a := createElement_li (item_markup "A") in
  let b := classList_add "completed" (createElement_li (item_markup "B")) in
  let s := set_children [a; b] empty_page in
  ∃ s1 s2,
    dispatch (ClickComplete 1) s = (Normal (), s1)
    ∧ dispatch (ClickComplete 1) s1 = (Normal (), s2)
    ∧ tasks_of (taskList_children s1)
      = Some [{| text := "A"; completed := false |}; {| text := "B"; completed := false |}]
    ∧ tasks_of (taskList_children s2)
      = Some [{| text := "A"; completed := false |}; {| text := "B"; completed := true |}].
Proof.
  intros a b s.
  destruct (complete_click_twice s 1 5 b {| text := "B"; completed := true |}
              [{| text := "A"; completed := false |}; {| text := "B"; completed := true |}])
    as (s1 & s2 & H1 & H2 & Ht1 & _ & _ & Ht2 & _);
    [reflexivity | reflexivity | reflexivity | reflexivity |].
  exists s1, s2. repeat split; assumption.
Defined.

(** C5. The toggle fails on a task whose text opens an element.  After the
    adds of [A] and of [<span>] the Complete control of the second item lies
    inside the span that the text has left open; line 73 takes that span for
    the item and line 75 puts the class on it, so the click writes the store
    but the completed flag of the task, which line 87 reads from the item,
    has not moved. *)
Theorem toggleComplete_control_inside_span :
  let r := dispatch (ClickComplete 1) after_span_add in
  reachable after_span_add
  ∧ taskList_children after_span_add !! 1 ≫= completeBtn = Some [1; 4]
  ∧ flags after_span_add = Some [false; false]
  ∧ r.1 = Normal ()
  ∧ flags r.2 = Some [false; false]
  ∧ taskList_children r.2 = taskList_children after_span_add
  ∧ writes (localStorage r.2) = S (writes (localStorage after_span_add)).
Proof.
  split; [apply after_span_add_reachable|].
  split; [vm_compute; reflexivity|]. split; [vm_compute; reflexivity|].
  split; [vm_compute; reflexivity|]. split; [vm_compute; reflexivity|].
  split; vm_compute; reflexivity.
Qed.

(** *** Moving a child of the list *)

Section insertBefore.
Context {A : Type}.
Implicit Types (l pre post : list A) (d t : nat).

Lemma lookup_without l d t (xt : A) :
  l !! t = Some xt → d ≠ t → delete d l !! place_without d t = Some xt.
Proof.
  intros Ht Hne. unfold place_without. case_decide.
  - rewrite list_lookup_delete_ge by lia. by replace (S (t - 1)) with t by lia.
  - rewrite list_lookup_delete_lt by lia. done.
Qed.

Lemma insertBefore_target l d t (xd : A) :
  l !! d = Some xd → d ≠ t →
  insertBefore d (Some t) l
  = take (place_without d t) (delete d l) ++ xd :: drop (place_without d t) (delete d l).
Proof.
  intros Hd Hne. unfold insertBefore. rewrite Hd.
  rewrite bool_decide_eq_false_2 by congruence. done.
Qed.

Lemma insertBefore_next l d t (xd xt : A) :
  l !! d = Some xd → l !! t = Some xt → d ≠ t →
  insertBefore d (nextElementSibling l t) l
  = take (S (place_without d t)) (delete d l)
    ++ xd :: drop (S (place_without d t)) (delete d l).
Proof.
  intros Hd Ht Hne.
  pose proof (lookup_lt_Some _ _ _ Hd) as Hld.
  pose proof (lookup_lt_Some _ _ _ Ht) as Hlt.
  assert (length (delete d l) = length l - 1) as Hlen.
  { rewrite length_delete; [done|]. by eexists. }
  unfold insertBefore, nextElementSibling, place_without. rewrite Hd.
  repeat (case_decide || case_bool_decide); simplify_eq; try lia.
  all: try done.
  all: try (rewrite take_ge, drop_ge by lia; done).
  all: f_equal; [f_equal; lia | do 2 f_equal; lia].
Qed.

(** Dropped above the middle of another item, the dragged one lands just
    before it. *)
Lemma insertBefore_lands_before l d t (xd xt : A) :
  l !! d = Some xd → l !! t = Some xt → d ≠ t →
  ∃ pre post,
    delete d l = pre ++ xt :: post ∧ length pre = place_without d t
    ∧ insertBefore d (Some t) l = pre ++ xd :: xt :: post.
Proof.
  intros Hd Ht Hne. pose proof (lookup_without _ _ _ _ Ht Hne) as Hp.
  exists (take (place_without d t) (delete d l)), (drop (S (place_without d t)) (delete d l)).
  split; [by rewrite take_drop_middle|]. split.
  - apply length_take_le. apply lookup_lt_Some in Hp. lia.
  - rewrite (insertBefore_target _ _ _ _ Hd Hne). by rewrite (drop_S _ _ _ Hp).
Qed.

(** Dropped on or below the middle, it lands just after it. *)
Lemma insertBefore_lands_after l d t (xd xt : A) :
  l !! d = Some xd → l !! t = Some xt → d ≠ t →
  ∃ pre post,
    delete d l = pre ++ xt :: post ∧ length pre = place_without d t
    ∧ insertBefore d (nextElementSibling l t) l = pre ++ xt :: xd :: post.
Proof.
  intros Hd Ht Hne. pose proof (lookup_without _ _ _ _ Ht Hne) as Hp.
  exists (take (place_without d t) (delete d l)), (drop (S (place_without d t)) (delete d l)).
  split; [by rewrite take_drop_middle|]. split.
  - apply length_take_le. apply lookup_lt_Some in Hp. lia.
  - rewrite (insertBefore_next _ _ _ _ _ Hd Ht Hne), (take_S_r _ _ _ Hp).
    by rewrite <- (assoc_L (++)).
Qed.

(** Dropped on itself, an item stays where it is. *)
Lemma insertBefore_self l d (xd : A) :
  l !! d = Some xd →
  insertBefore d (Some d) l = l ∧ insertBefore d (nextElementSibling l d) l = l.
Proof.
  intros Hd. pose proof (lookup_lt_Some _ _ _ Hd) as Hld.
  assert (length (delete d l) = length l - 1) as Hlen.
  { rewrite length_delete; [done|]. by eexists. }
  assert (take d (delete d l) ++ xd :: drop d (delete d l) = l) as Hmid.
  { rewrite delete_take_drop, take_app_le, drop_app_ge, take_take, Nat.min_id
      by (rewrite ?length_take; lia).
    rewrite length_take_le, Nat.sub_diag by lia. cbn [drop].
    by apply take_drop_middle. }
  assert (S d = length l → delete d l ++ [xd] = l) as Hlast.
  { intros Hl. rewrite <- Hmid at 2. rewrite take_ge, drop_ge by lia. done. }
  unfold insertBefore, nextElementSibling. rewrite Hd.
  repeat (case_decide || case_bool_decide); simplify_eq; try lia;
    rewrite ?Nat.sub_succ, ?Nat.sub_0_r; auto with lia.
Qed.

End insertBefore.

(** *** Finding the dragged item *)

(** The loop returns the first index whose task has the searched text. *)
Lemma find_from_first (l : list li) (ts : list task) (payload : string) (i : nat) :
  tasks_of l = Some ts →
  find_from payload l i
  = Normal ((λ p, i + p.1) <$> list_find (λ t, text t = payload) ts).
Proof.
  revert ts i. induction l as [|x l IH]; intros ts i Hts.
  - by injection Hts as <-.
  - apply tasks_of_Forall2 in Hts.
    inversion Hts as [|? t ? ts' Hx Hl]; subst. apply tasks_of_Forall2 in Hl.
    cbn [find_from list_find]. unfold task_of_item in Hx.
    destruct (querySelector (by_tag "span") x) as [span|]; [|done].
    injection Hx as <-. cbn [text].
    destruct (decide (innerText span = payload)) as [He|He].
    + rewrite bool_decide_eq_true_2 by done. cbn. do 2 f_equal. lia.
    + rewrite bool_decide_eq_false_2 by done. rewrite (IH _ (S i) Hl).
      destruct (list_find _ ts') as [[k y]|]; cbn; [|done]. do 2 f_equal. lia.
Qed.

Lemma after_drag_over_tasks (e : element) (l : list li) :
  tasks_of (after_drag_over e l) = tasks_of l.
Proof.
  destruct e; try done. apply tasks_of_alter_id.
  intros x. by apply task_of_remove_other.
Qed.

Lemma after_drag_over_length (e : element) (l : list li) :
  length (after_drag_over e l) = length l.
Proof. destruct e; try done. apply length_alter. Qed.

Lemma after_drag_over_children (e : element) (l : list li) (j : nat) :
  li_children <$> after_drag_over e l !! j = li_children <$> l !! j.
Proof.
  destruct e as [i| |]; try done. cbn [after_drag_over].
  destruct (decide (i = j)) as [<-|]; [|by rewrite list_lookup_alter_ne].
  rewrite list_lookup_alter_eq. by destruct (l !! i).
Qed.

(** Line 193 changes no answer of [closest]. *)
Lemma closest_li_after_drag_over (e e' : element) (l : list li) :
  closest_li (after_drag_over e' l) e = closest_li l e.
Proof.
  destruct e as [j|j path|]; cbn [closest_li]; [by rewrite after_drag_over_length| |done].
  pose proof (after_drag_over_children e' l j) as Hc.
  destruct (after_drag_over e' l !! j) as [y|], (l !! j) as [x|]; try done.
  cbn in *. by injection Hc as ->.
Qed.

Lemma update_element_run (f : li → li) (e : element) (s : page) :
  update_element f e s
  = (Normal (), match e with
                | Item i => set_children (alter f i (taskList_children s)) s
                | _ => s
                end).
Proof. by destruct e. Qed.

Lemma drag_over_removed (e : element) (s : page) :
  update_element (classList_remove "drag-over") e s
  = (Normal (), set_children (after_drag_over e (taskList_children s)) s).
Proof. rewrite update_element_run. destruct s. by destruct e. Qed.

(** One run of [handleDrop] when both items are found. *)
Lemma handleDrop_run (event : DragEvent) (s : page) (ts : list task) (d t : nat) (td : task) :
  tasks_of (taskList_children s) = Some ts →
  list_find (λ x, text x = dataTransfer_text event) ts = Some (d, td) →
  closest_li (taskList_children s) (target event) = Some (Item t) →
  let l1 := after_drag_over (target event) (taskList_children s) in
  let child := drop_reference event (length ts) t in
  tasks_of (insertBefore d child l1) = Some (insertBefore d child ts)
  ∧ handleDrop event s
    = (Normal (), stored (serialise (insertBefore d child ts))
                    (set_children (insertBefore d child l1) s)).
Proof.
  intros Hts Hfind Ht l1 child.
  assert (tasks_of l1 = Some ts) as Hts1 by (unfold l1; by rewrite after_drag_over_tasks).
  pose proof (tasks_of_insertBefore _ _ d child Hts1) as Hmoved.
  split; [done|].
  assert (length l1 = length ts) as Hlen by (symmetry; by apply tasks_of_length).
  unfold handleDrop, findTaskItemByText.
  js_unfold. rewrite drag_over_removed. cbn [taskList_children set_children]. fold l1.
  rewrite (find_from_first _ _ _ 0 Hts1), Hfind. cbn [fmap option_fmap option_map fst].
  unfold l1 at 1. rewrite closest_li_after_drag_over, Ht.
  cbn [Nat.add].
  assert (after_move : ∀ c, c = child →
     saveTasks (set_children (insertBefore d c l1) (set_children l1 s))
     = (Normal (), stored (serialise (insertBefore d child ts))
                     (set_children (insertBefore d child l1) s))).
  { intros c ->.
    by rewrite (saveTasks_ok (set_children (insertBefore d child l1) (set_children l1 s))
                  _ Hmoved). }
  unfold child, drop_reference in *. destruct (above_midpoint event).
  - by apply after_move.
  - cbn [nextElementSibling_of taskList_children set_children].
    unfold nextElementSibling. rewrite Hlen.
    destruct (decide (S t < length ts)); by apply after_move.
Qed.

(** *** Reorder *)

Lemma findTaskItemByText_list_find (s : page) (ts : list task) (payload : string) (d : nat) :
  tasks_of (taskList_children s) = Some ts →
  findTaskItemByText payload s = (Normal (Some d), s) →
  ∃ td, list_find (λ x, text x = payload) ts = Some (d, td).
Proof.
  intros Hts. unfold findTaskItemByText. rewrite (find_from_first _ _ _ 0 Hts).
  destruct (list_find _ ts) as [[k td]|]; [|done].
  intros [= <-]. by exists td.
Qed.

(** C7 (as amended). When the dragged text names the [d]-th task and the
    drop lands on the [t]-th, [handleDrop] returns normally and stores the
    serialised new sequence.  The other tasks keep their order; when the
    test of line 206 holds, [clientY] being less than the rounded sum of
    [top] and half of [clientHeight], the dragged task stands immediately
    before the target, otherwise immediately after it; a task dropped on
    itself leaves the sequence as it was. *)
Theorem handleDrop_places_dragged
    (event : DragEvent) (s : page) (ts : list task) (d t : nat) (xd xt : task) :
  tasks_of (taskList_children s) = Some ts →
  findTaskItemByText (dataTransfer_text event) s = (Normal (Some d), s) →
  closest_li (taskList_children s) (target event) = Some (Item t) →
  ts !! d = Some xd →
  ts !! t = Some xt →
  ∃ s' ts',
    handleDrop event s = (Normal (), s')
    ∧ tasks_of (taskList_children s') = Some ts'
    ∧ persisted s' = Some (serialise ts')
    ∧ writes (localStorage s') = S (writes (localStorage s))
    ∧ (d = t → ts' = ts)
    ∧ (d ≠ t → ∃ pre post,
         delete d ts = pre ++ xt :: post
         ∧ length pre = place_without d t
         ∧ (above_midpoint event = true → ts' = pre ++ xd :: xt :: post)
         ∧ (above_midpoint event = false → ts' = pre ++ xt :: xd :: post)).
Proof.
  intros Hts Hfind Ht Hd Hxt.
  destruct (findTaskItemByText_list_find _ _ _ _ Hts Hfind) as [td Hlf].
  destruct (handleDrop_run event s ts d t td Hts Hlf Ht) as [Hmoved Hrun].
  eexists _, _. split; [exact Hrun|]. split; [exact Hmoved|].
  split; [apply lookup_insert_eq|]. split; [done|].
  pose proof (lookup_lt_Some _ _ _ Hxt) as Hlt.
  unfold drop_reference. split.
  - intros <-. destruct (insertBefore_self ts d xd Hd) as [Hb Ha].
    destruct (above_midpoint event); [done|]. exact Ha.
  - intros Hne.
    destruct (insertBefore_lands_before ts d t xd xt Hd Hxt Hne) as (pre & post & Hrest & Hlen & Hb).
    destruct (insertBefore_lands_after ts d t xd xt Hd Hxt Hne) as (pre' & post' & Hrest' & Hlen' & Ha).
    assert (pre' = pre ∧ post' = post) as [-> ->].
    { rewrite Hrest in Hrest'. apply app_inj_1 in Hrest' as [? ?]; [|congruence].
      by simplify_eq. }
    exists pre, post. repeat split; try done.
    + by intros ->.
    + by intros ->.
Qed.

Lemma handleDrop_places_dragged_witness :
  ∃ s', handleDrop drop_A_on_C three_items = (Normal (), s')
    ∧ tasks_of (taskList_children s') = Some [plain "B"; plain "C"; plain "A"]
    ∧ persisted s' = Some (serialise [plain "B"; plain "C"; plain "A"]).
Proof.
  destruct (handleDrop_places_dragged drop_A_on_C three_items
              [plain "A"; plain "B"; plain "C"] 0 2 (plain "A") (plain "C"))
    as (s' & ts' & Hrun & Hts' & Hp & _ & _ & Hmove); try reflexivity.
  destruct (Hmove ltac:(lia)) as (pre & post & Hrest & Hlen & _ & Hafter).
  destruct pre as [|b [|? ?]]; try discriminate Hlen.
  injection Hrest as <- <-.
  rewrite Hafter in Hts', Hp by (vm_compute; reflexivity).
  exists s'. repeat split; assumption.
Defined.

(** The second scenario of the claim, by evaluation. *)
Lemma handleDrop_C_onto_A :
  above_midpoint drop_C_on_A = true
  ∧ fst (handleDrop drop_C_on_A three_items) = Normal ()
  ∧ tasks_of (taskList_children (snd (handleDrop drop_C_on_A three_items)))
    = Some [plain "C"; plain "A"; plain "B"]
  ∧ persisted (snd (handleDrop drop_C_on_A three_items))
    = Some (serialise [plain "C"; plain "A"; plain "B"]).
Proof.
  split; [vm_compute; reflexivity|]. split; [vm_compute; reflexivity|].
  split; vm_compute; reflexivity.
Qed.

(** C7, as first stated, fails where the sum of line 206 is rounded.  With
    [clientY] the Number 10.1, [top] the Number 0.1 and a [clientHeight] of
    20, the pointer is above the middle of the target by less than the
    rounding of the sum; the test of line 206 is false and [A], dragged onto
    [B], is put after it. *)
Lemma handleDrop_rounded_middle :
  above_exact_middle drop_near_middle
  ∧ above_midpoint drop_near_middle = false
  ∧ fst (handleDrop drop_near_middle two_items) = Normal ()
  ∧ tasks_of (taskList_children (snd (handleDrop drop_near_middle two_items)))
    = Some [plain "B"; plain "A"].
Proof.
  split; [vm_compute; reflexivity|]. split; [vm_compute; reflexivity|].
  split; vm_compute; reflexivity.
Qed.

(** C9. With the same text on two tasks of the list, [findTaskItemByText]
    returns the first task in display order that has that text, whichever of
    the two was dragged, and a drop whose payload is that text moves that
    first task. *)
Theorem findTaskItemByText_first_match
    (s : page) (ts : list task) (payload : string) (i j : nat) (a b : task) :
  tasks_of (taskList_children s) = Some ts →
  i < j → ts !! i = Some a → ts !! j = Some b →
  text a = payload → text b = payload →
  ∃ d td,
    findTaskItemByText payload s = (Normal (Some d), s)
    ∧ ts !! d = Some td ∧ text td = payload
    ∧ d ≤ i
    ∧ (∀ k tk, ts !! k = Some tk → text tk = payload → d ≤ k)
    ∧ (∀ event t,
         dataTransfer_text event = payload →
         closest_li (taskList_children s) (target event) = Some (Item t) →
         ∃ s', handleDrop event s = (Normal (), s')
           ∧ tasks_of (taskList_children s')
             = Some (insertBefore d (drop_reference event (length ts) t) ts)).
Proof.
  intros Hts Hij Ha Hb Hta Htb.
  destruct (list_find (λ x, text x = payload) ts) as [[d td]|] eqn:Hfind.
  2: { apply list_find_None in Hfind.
       apply list_elem_of_lookup_2 in Ha.
       rewrite Forall_forall in Hfind. by destruct (Hfind a Ha). }
  destruct (proj1 (list_find_Some _ _ _ _) Hfind) as (Hd & Htd & Hfirst).
  assert (∀ k tk, ts !! k = Some tk → text tk = payload → d ≤ k) as Hleast.
  { intros k tk Hk Htk. destruct (decide (d ≤ k)); [done|].
    exfalso. apply (Hfirst k tk Hk); [lia | done]. }
  exists d, td. repeat split; try done.
  - unfold findTaskItemByText. by rewrite (find_from_first _ _ _ 0 Hts), Hfind.
  - by eapply Hleast.
  - intros event t Hpay Ht. rewrite <- Hpay in Hfind.
    destruct (handleDrop_run event s ts d t td Hts Hfind Ht) as [Hmoved Hrun].
    eexists. split; [exact Hrun | exact Hmoved].
Qed.

Lemma findTaskItemByText_first_match_witness :
  let s := set_children [createElement_li (item_markup "milk");
                         createElement_li (item_markup "eggs");
                         createElement_li (item_markup "milk")] empty_page in
  ∃ d, findTaskItemByText "milk" s = (Normal (Some d), s) ∧ d ≤ 0.
Proof.
  intros s.
  destruct (findTaskItemByText_first_match s [plain "milk"; plain "eggs"; plain "milk"]
              "milk" 0 2 (plain "milk") (plain "milk"))
    as (d & td & Hrun & _ & _ & Hle & _); try reflexivity; [lia|].
  exists d. split; assumption.
Defined.

(** *** The store after an operation *)










(** *** Add *)

Lemma alter_last {A} (f : A → A) (l : list A) (x : A) :
  alter f (length l) (l ++ [x]) = l ++ [f x].
Proof. rewrite alter_app_r_alt by lia. by rewrite Nat.sub_diag. Qed.

Lemma task_of_plain_item (t : string) (classes : list string) :
  task_of_item (plain_item t classes)
  = Some {| text := collapse_ws t; completed := bool_decide ("completed" ∈ classes) |}.
Proof.
  unfold task_of_item, querySelector, plain_item. cbn [li_children].
  rewrite item_tree_span. cbn [mbind option_bind]. by rewrite innerText_span.
Qed.

(** X1. On input whose trimmed text has no markup, [addTask] appends one
    item that is not completed and shows the trimmed text, clears the field
    and stores the new sequence. *)
Lemma addTask_appends (s : page) (ts : list task) (t : string) :
  tasks_of (taskList_children s) = Some ts →
  trim (taskInput_value s) = t → t ≠ "" → markup_free t = true →
  ∃ s', addTask Enter s = (Normal (), s')
    ∧ taskList_children s' = taskList_children s ++ [plain_item t []]
    ∧ tasks_of (taskList_children s')
      = Some (ts ++ [{| text := collapse_ws t; completed := false |}])
    ∧ taskInput_value s' = ""
    ∧ persisted s' = Some (serialise (ts ++ [{| text := collapse_ws t; completed := false |}]))
    ∧ writes (localStorage s') = S (writes (localStorage s)).
Proof.
  intros Hts Htrim Hne Hfree.
  assert (tasks_of (taskList_children s ++ [plain_item t []])
          = Some (ts ++ [{| text := collapse_ws t; completed := false |}])) as Hnew.
  { apply tasks_of_snoc; [done|]. by rewrite task_of_plain_item. }
  eexists. split.
  { unfold addTask, Enter. cbn [key]. rewrite bool_decide_eq_true_2 by done.
    js_unfold. rewrite Htrim, bool_decide_eq_false_2 by done.
    unfold appendChild, createElement_li, querySelector. cbn [li_children].
    rewrite (parse_item_markup _ Hfree).
    rewrite item_tree_deleteBtn, item_tree_completeBtn.
    unfold addEventListener, update_element. js_unfold.
    cbn [taskList_children set_children set_taskInput_value].
    rewrite alter_last.
    match goal with |- saveTasks ?s0 = _ => apply (saveTasks_ok s0 _ Hnew) end. }
  cbn. repeat split; try done. apply lookup_insert_eq.
Qed.

(** C3. The add fails on input that opens a comment: the item is appended
    and the field cleared, but the comment swallows the two buttons of the
    template, the registration of the delete handler throws on [null], and
    [saveTasks] is not reached: the store keeps the old sequence. *)
Theorem addTask_comment_not_persisted :
  let s := snd (addTask Enter (set_taskInput_value "A" empty_page)) in
  let s' := snd (addTask Enter (set_taskInput_value "<!--" s)) in
  trim "<!--" ≠ ""
  ∧ in_sync s
  ∧ fst (addTask Enter (set_taskInput_value "<!--" s)) = Throw TypeError
  ∧ tasks_of (taskList_children s') = Some [plain "A"; plain ""]
  ∧ taskInput_value s' = ""
  ∧ persisted s' = Some (serialise [plain "A"])
  ∧ writes (localStorage s') = writes (localStorage s).
Proof.
  split; [vm_compute; discriminate|].
  split; [exists [plain "A"]; split; vm_compute; reflexivity|].
  split; [vm_compute; reflexivity|]. split; [vm_compute; reflexivity|].
  split; [vm_compute; reflexivity|]. split; vm_compute; reflexivity.
Qed.

(** *** Restore *)

Lemma task_of_restored (t : task) :
  plain_text (text t) → task_of_item (restored t) = Some t.
Proof.
  intros [_ Hws]. unfold restored. rewrite task_of_plain_item, Hws.
  by destruct t as [x []].
Qed.

Lemma task_json_text (a b : json) :
  get_member "text" [("text", a); ("completed", b)] None = Some a.
Proof. reflexivity. Qed.

Lemma task_json_completed (a b : json) :
  get_member "completed" [("text", a); ("completed", b)] None = Some b.
Proof. reflexivity. Qed.

Lemma restore_item_plain (t : task) (s : page) :
  markup_free (text t) = true →
  restore_item (task_json t) s
  = (Normal (), set_children (taskList_children s ++ [restored t]) s).
Proof.
  intros Hfree. unfold restore_item, task_json, get_property. js_unfold.
  rewrite task_json_text, task_json_completed. cbn [ToString to_string].
  unfold appendChild, createElement_li, querySelector. cbn [li_children].
  rewrite (parse_item_markup _ Hfree).
  rewrite item_tree_deleteBtn, item_tree_completeBtn.
  unfold addEventListener, update_element. js_unfold.
  destruct t as [x []]; cbn [truthy completed text];
    cbn [taskList_children set_children]; rewrite ?alter_last; js_unfold;
    cbn [taskList_children set_children]; rewrite ?alter_last; done.
Qed.

Lemma forEach_restore_plain (ts : list task) (s : page) :
  Forall (λ t, plain_text (text t)) ts →
  forEach (task_json <$> ts) restore_item s
  = (Normal (), set_children (taskList_children s ++ (restored <$> ts)) s).
Proof.
  revert s. induction ts as [|t ts IH]; intros s Hall.
  - cbn. rewrite app_nil_r. by destruct s.
  - inversion Hall as [|? ? [Hfree _] Hrest]; subst.
    cbn [fmap list_fmap forEach]. js_unfold.
    rewrite (restore_item_plain _ _ Hfree).
    change (list_fmap task json task_json ts) with (task_json <$> ts).
    rewrite (IH _ Hrest). cbn [taskList_children set_children].
    by rewrite <- (assoc_L (++)).
Qed.

Lemma tasks_of_restored (ts : list task) :
  Forall (λ t, plain_text (text t)) ts → tasks_of (restored <$> ts) = Some ts.
Proof.
  intros Hall. apply tasks_of_Forall2, Forall2_fmap_l, Forall_Forall2_diag.
  eapply Forall_impl; [exact Hall|]. intros t. apply task_of_restored.
Qed.

Lemma loadTasks_unfold (s : page) :
  loadTasks s
  = match JSON_parse (default "null" (persisted s)) with
    | None => (Throw SyntaxError, s)
    | Some parsed =>
        match (if truthy (Some parsed) then parsed else JArray []) with
        | JArray l => forEach l restore_item s
        | _ => (Throw TypeError, s)
        end
    end.
Proof.
  unfold loadTasks, persisted. js_unfold.
  destruct (JSON_parse _) as [parsed|]; [|done].
  by destruct (if truthy (Some parsed) then parsed else JArray []).
Qed.

Lemma main_unfold (s : page) :
  main s = match loadTasks s with
           | (Normal _, s') => (Normal (), set_listening true s')
           | (Throw e, s') => (Throw e, s')
           end.
Proof. unfold main. js_unfold. by destruct (loadTasks s) as [[[]|e] s']. Qed.

(** X3. Persist, then restore on a fresh page: on sequences whose texts have
    no markup the restored sequence is the persisted one, order, texts and
    flags included. *)
Lemma restore_persist_plain (s : page) (ts : list task) :
  tasks_of (taskList_children s) = Some ts →
  Forall (λ t, plain_text (text t)) ts →
  ∃ s1 s2,
    saveTasks s = (Normal (), s1)
    ∧ reload s1 = (Normal (), s2)
    ∧ tasks_of (taskList_children s2) = Some ts
    ∧ localStorage s2 = localStorage s1.
Proof.
  intros Hts Hall. eexists _, _. split; [by apply saveTasks_ok|].
  unfold reload. rewrite main_unfold, loadTasks_unfold. unfold persisted.
  cbn [localStorage stored set_localStorage items].
  rewrite lookup_insert_eq. cbn [from_option id]. unfold serialise.
  rewrite JsonFacts.parse_stringify_tasks. cbn [truthy].
  rewrite (forEach_restore_plain _ _ Hall). cbn.
  split; [reflexivity|]. split; [|done]. by apply tasks_of_restored.
Qed.

(** C2 (as amended). A [loadTasks] that finds the key absent, or finds under
    it the JSON text of [null], [false], a zero, the empty string or the
    empty array, returns without an error and adds no item; the handlers are
    then registered.  A value that is not JSON text makes it throw a
    [SyntaxError]: no item is added and the handlers are not registered. *)
Theorem loadTasks_empty_store (s : page) :
  (persisted s = None → loadTasks s = (Normal (), s))
  ∧ (∀ v j, persisted s = Some v → JSON_parse v = Some j →
       truthy (Some j) = false ∨ j = JArray [] →
       loadTasks s = (Normal (), s))
  ∧ (∀ v, persisted s = Some v → JSON_parse v = None →
       loadTasks s = (Throw SyntaxError, s) ∧ main s = (Throw SyntaxError, s))
  ∧ (loadTasks s = (Normal (), s) → main s = (Normal (), set_listening true s)).
Proof.
  split; [|split; [|split]].
  - intros H. rewrite loadTasks_unfold, H. reflexivity.
  - intros v j Hv Hj Hfalsy. rewrite loadTasks_unfold, Hv. cbn [from_option id].
    rewrite Hj. destruct Hfalsy as [-> | ->]; reflexivity.
  - intros v Hv Hbad.
    assert (loadTasks s = (Throw SyntaxError, s)) as Hload.
    { rewrite loadTasks_unfold, Hv. cbn [from_option id]. by rewrite Hbad. }
    split; [done|]. by rewrite main_unfold, Hload.
  - intros H. by rewrite main_unfold, H.
Qed.

Lemma loadTasks_empty_store_witness :
  loadTasks empty_page = (Normal (), empty_page)
  ∧ loadTasks (with_stored "null") = (Normal (), with_stored "null")
  ∧ loadTasks (with_stored "0.0") = (Normal (), with_stored "0.0")
  ∧ loadTasks (with_stored "[ ]") = (Normal (), with_stored "[ ]")
  ∧ main (with_stored "buy milk") = (Throw SyntaxError, with_stored "buy milk")
  ∧ main empty_page = (Normal (), set_listening true empty_page).
Proof.
  destruct (loadTasks_empty_store empty_page) as (Habsent & _ & _ & Hmain).
  destruct (loadTasks_empty_store (with_stored "null")) as (_ & Hnull & _).
  destruct (loadTasks_empty_store (with_stored "0.0")) as (_ & Hzero & _).
  destruct (loadTasks_empty_store (with_stored "[ ]")) as (_ & Hnil & _).
  destruct (loadTasks_empty_store (with_stored "buy milk")) as (_ & _ & Hbad & _).
  split; [by apply Habsent|].
  split; [apply (Hnull "null" JNull); [reflexivity | reflexivity | by left]|].
  split; [apply (Hzero "0.0" (JNumber (of_literal "0.0"))); [reflexivity | reflexivity | by left]|].
  split; [apply (Hnil "[ ]" (JArray [])); [reflexivity | reflexivity | by right]|].
  split; [apply (Hbad "buy milk"); reflexivity|].
  apply Hmain. by apply Habsent.
Defined.

(** C2, as first stated, fails: text that is not JSON makes the restore
    throw; so does a JSON value that is not an array; and an array of values
    that are not tasks is restored as items. *)
Lemma loadTasks_open_failure :
  loadTasks (with_stored "buy milk") = (Throw SyntaxError, with_stored "buy milk")
  ∧ loadTasks (with_stored "7") = (Throw TypeError, with_stored "7")
  ∧ fst (loadTasks (with_stored "[1, 2]")) = Normal ()
  ∧ tasks_of (taskList_children (snd (loadTasks (with_stored "[1, 2]"))))
    = Some [plain "undefined"; plain "undefined"]
  ∧ ¬ (∀ v, ∃ s', loadTasks (with_stored v) = (Normal (), s') ∧ taskList_children s' = []).
Proof.
  split; [vm_compute; reflexivity|]. split; [vm_compute; reflexivity|].
  split; [vm_compute; reflexivity|]. split; [vm_compute; reflexivity|].
  intros H. destruct (H "buy milk") as (s' & Hrun & _).
  vm_compute in Hrun. discriminate Hrun.
Qed.

(** C1. The round trip fails on a task whose text reads as markup: the task
    shown as [&amp;] is stored with that text, and the restore, which puts
    the stored text through the HTML parser, shows [&] in its place. *)
Theorem restore_persist_markup_text :
  let s := snd (addTask Enter (set_taskInput_value "&amp;amp;" empty_page)) in
  tasks_of (taskList_children s) = Some [plain "&amp;"]
  ∧ ∃ s1 s2,
      saveTasks s = (Normal (), s1)
      ∧ persisted s1 = Some (serialise [plain "&amp;"])
      ∧ reload s1 = (Normal (), s2)
      ∧ tasks_of (taskList_children s2) = Some [plain "&"].
Proof.
  split; [vm_compute; reflexivity|].
  eexists _, _. split; [vm_compute; reflexivity|].
  split; [vm_compute; reflexivity|].
  split; vm_compute; reflexivity.
Qed.

(** ** Every item has its span *)

Module SpanFacts.

Lemma first_element_app (l k : list node) :
  first_element (l ++ k)
  = match first_element l with Some n => Some n | None => first_element k end.
Proof. induction l as [|x l IH]; [done|]. destruct x; cbn; auto. Qed.

Lemma first_element_snoc (l : list node) (x : node) (n : string) :
  first_element (reverse l) = Some n → first_element (reverse (x :: l)) = Some n.
Proof. intros H. by rewrite reverse_cons, first_element_app, H. Qed.

Lemma first_element_push_char (c : ascii) (l : list node) :
  first_element (reverse (push_char c l)) = first_element (reverse l).
Proof.
  destruct l as [|x l]; [done|].
  destruct x; cbn [push_char]; rewrite ?reverse_cons, ?first_element_app;
    destruct (first_element (reverse l)); done.
Qed.

Lemma lead_insert_node (n : string) (x : node) (b : builder) :
  lead b = Some n → lead (insert_node x b) = Some n.
Proof.
  unfold lead, insert_node. destruct b as [top [|o k]]; cbn [rev_top stack].
  - destruct (first_element (reverse top)) eqn:E; [|done].
    intros ?. by rewrite (first_element_snoc _ _ _ E).
  - destruct (first_element (reverse top)); [done|]. by destruct k.
Qed.

Lemma lead_emit_char (n : string) (c : ascii) (b : builder) :
  lead b = Some n → lead (emit_char c b) = Some n.
Proof.
  unfold lead, emit_char. destruct b as [top [|o k]]; cbn [rev_top stack].
  - by rewrite first_element_push_char.
  - destruct (first_element (reverse top)); [done|]. by destruct k.
Qed.

Lemma lead_emit_text (n : string) (t : string) (b : builder) :
  lead b = Some n → lead (emit_text t b) = Some n.
Proof.
  revert b. induction t as [|c t IH]; intros b H; [done|].
  cbn [emit_text]. by apply IH, lead_emit_char.
Qed.

Lemma lead_close_top (n : string) (b : builder) :
  lead b = Some n → lead (close_top b) = Some n.
Proof.
  unfold close_top. destruct b as [top [|o k]]; [done|]. cbn [stack rev_top].
  unfold lead, insert_node. cbn [stack rev_top].
  destruct k as [|o' k]; cbn [stack rev_top].
  - rewrite reverse_cons, first_element_app.
    by destruct (first_element (reverse top)).
  - destruct (first_element (reverse top)); [done|]. by destruct k.
Qed.

Lemma lead_pop_until (n name : string) (k : list open_element) (b : builder) :
  lead b = Some n → lead (pop_until name k b) = Some n.
Proof.
  revert b. induction k as [|o k IH]; intros b H; [done|].
  cbn [pop_until]. case_bool_decide; [by apply lead_close_top|].
  by apply IH, lead_close_top.
Qed.

Lemma lead_close_all (n : string) (k : list open_element) (b : builder) :
  lead b = Some n → lead (close_all k b) = Some n.
Proof.
  revert b. induction k as [|o k IH]; intros b H; [done|].
  cbn [close_all]. by apply IH, lead_close_top.
Qed.

Lemma lead_emit_tag (n : string) (t : tag) (b : builder) :
  lead b = Some n → lead (emit_tag t b) = Some n.
Proof.
  intros H. unfold emit_tag, end_tag, start_tag.
  destruct (t_closing t).
  - case_bool_decide; [by apply lead_pop_until | done].
  - case_bool_decide; [by apply lead_insert_node|].
    unfold lead in *. cbn [rev_top stack].
    destruct (first_element (reverse (rev_top b))); [done|].
    by destruct (stack b).
Qed.

Create HintDb lead discriminated.
#[local] Hint Resolve lead_insert_node lead_emit_char lead_emit_text lead_emit_tag : lead.

Lemma lead_data_step (n : string) (c : ascii) (b : builder) :
  lead b = Some n → lead (data_step c b).2 = Some n.
Proof. intros H. unfold data_step. repeat case_match; cbn [snd]; auto with lead. Qed.

#[local] Hint Resolve lead_data_step : lead.

Lemma lead_hstep (n : string) (p : parser) (c : ascii) :
  lead p.2 = Some n → lead (hstep p c).2 = Some n.
Proof.
  destruct p as [st b]. cbn [snd]. intros H.
  destruct st; cbn [hstep];
    unfold before_attr_name_step, comment_step, comment_body_step, bogus_step;
    repeat case_match; cbn [snd]; auto 6 with lead.
Qed.

Lemma lead_hrun (n : string) (t : string) (p : parser) :
  lead p.2 = Some n → lead (hrun p t).2 = Some n.
Proof.
  revert p. induction t as [|c t IH]; intros p H; [done|].
  cbn [hrun]. by apply IH, lead_hstep.
Qed.

Lemma stack_close_top (b : builder) :
  length (stack (close_top b)) = pred (length (stack b)).
Proof. destruct b as [top [|o [|o' k]]]; done. Qed.

Lemma stack_close_all (k : list open_element) (b : builder) :
  length (stack b) ≤ length k → stack (close_all k b) = [].
Proof.
  revert b. induction k as [|o k IH]; intros b H; cbn [close_all].
  - destruct (stack b); [done|]. cbn in H. lia.
  - apply IH. rewrite stack_close_top. cbn in H. lia.
Qed.

Lemma first_element_hfinish (n : string) (p : parser) :
  lead p.2 = Some n → first_element (hfinish p) = Some n.
Proof.
  destruct p as [st b]. cbn [snd]. intros H. unfold hfinish.
  set (b' := match st with
             | HCharRef buf => emit_text ("&" +:+ buf) b
             | HTagOpen => emit_char "<" b
             | HEndTagOpen => emit_text "</" b
             | HMarkupDecl _ | HBogus | HComment _ => insert_node Comment b
             | _ => b
             end).
  assert (lead b' = Some n) as H' by (unfold b'; destruct st; auto with lead).
  pose proof (lead_close_all n (stack b') b' H') as Hl.
  unfold lead in Hl. rewrite stack_close_all in Hl by done.
  by destruct (first_element _).
Qed.

Lemma find_first_element (n : string) (l : list node) :
  first_element l = Some n → is_Some (find_among (by_tag n) l).
Proof.
  induction l as [|x l IH]; [done|]. destruct x as [s| |m attrs ch]; cbn; auto.
  intros [= ->]. unfold by_tag. rewrite bool_decide_eq_true_2 by done. by eexists.
Qed.

(** Whatever the text, the template opens with a span, and the item built
    from it has one. *)
Lemma createElement_li_has_span (taskText : string) :
  is_Some (task_of_item (createElement_li (item_markup taskText))).
Proof.
  assert (is_Some (find_among (by_tag "span") (parse_fragment (item_markup taskText))))
    as [span Hspan].
  { assert (lead (hrun (hrun (HData, empty_builder) newline) "                <span>").2
            = Some "span") as Hopen by reflexivity.
    apply find_first_element. unfold parse_fragment, item_markup.
    rewrite !hrun_app. apply first_element_hfinish.
    repeat first [exact Hopen | apply lead_hrun]. }
  unfold task_of_item, querySelector, createElement_li. cbn [li_children].
  rewrite Hspan. by eexists.
Qed.

End SpanFacts.

(** *** Pages the script can reach *)

Section keeps.

Lemma spans_tasks (s : page) : spans s ↔ is_Some (tasks_of (taskList_children s)).
Proof. unfold spans, tasks_of. by rewrite mapM_is_Some. Qed.

Lemma has_span_children (x y : li) :
  li_children y = li_children x → has_span x → has_span y.
Proof.
  unfold has_span, task_of_item, querySelector. intros ->.
  destruct (find_among _ _); [by eexists | by intros [? ?]].
Qed.

Lemma keeps_ret {A} (a : A) : keeps (mret a).
Proof. by intros s. Qed.

Lemma keeps_throw {A} (e : error) : keeps (@throw A e).
Proof. by intros s. Qed.

Lemma keeps_gets {A} (f : page → A) : keeps (gets f).
Proof. by intros s. Qed.

Lemma keeps_bind {A B} (m : js A) (f : A → js B) :
  keeps m → (∀ a, keeps (f a)) → keeps (m ≫= f).
Proof.
  intros Hm Hf s Hs. unfold mbind, js_bind.
  specialize (Hm s Hs). destruct (m s) as [[a|e] s0]; [|done]. by apply Hf.
Qed.

Lemma keeps_modify (f : page → page) :
  (∀ s, spans s → spans (f s)) → keeps (modify f).
Proof. intros Hf s Hs. by apply Hf. Qed.

Lemma keeps_update_element (f : li → li) (e : element) :
  (∀ x, li_children (f x) = li_children x) → keeps (update_element f e).
Proof.
  intros Hf. destruct e; try apply keeps_ret.
  apply keeps_modify. intros s Hs. unfold spans in *. cbn.
  apply Forall_alter; [done|]. intros x _ Hx.
  apply (has_span_children x); [apply Hf | done].
Qed.

Lemma children_classList_add c x : li_children (classList_add c x) = li_children x.
Proof. unfold classList_add. by case_match. Qed.

Lemma children_classList_remove c x : li_children (classList_remove c x) = li_children x.
Proof. done. Qed.

Lemma children_classList_toggle c x : li_children (classList_toggle c x) = li_children x.
Proof. unfold classList_toggle, classList_add. by repeat case_match. Qed.

Lemma keeps_appendChild (x : li) : has_span x → keeps (appendChild x).
Proof.
  intros Hx s Hs. unfold spans in *. cbn. apply Forall_app. split; [done|].
  by constructor.
Qed.

Lemma keeps_addEventListener (n : option node) : keeps (addEventListener n).
Proof. destruct n; [apply keeps_ret | apply keeps_throw]. Qed.

Lemma keeps_saveTasks : keeps saveTasks.
Proof.
  intros s Hs. unfold saveTasks. js_unfold. by destruct (tasks_of _).
Qed.

Lemma Forall_insertBefore {A} (P : A → Prop) (d : nat) (child : option nat) (l : list A) :
  Forall P l → Forall P (insertBefore d child l).
Proof.
  intros H. unfold insertBefore. destruct (l !! d) as [x|] eqn:Hx; [|done].
  assert (P x) by (by eapply Forall_lookup_1).
  destruct (if bool_decide _ then _ else _).
  - apply Forall_app. split; [by apply Forall_take, Forall_delete|].
    constructor; [done|]. by apply Forall_drop, Forall_delete.
  - apply Forall_app. split; [by apply Forall_delete | by constructor].
Qed.

End keeps.

Ltac keeps_step := apply keeps_bind; [|intros ?].

Lemma keeps_addTask (event : Event) : keeps (addTask event).
Proof.
  unfold addTask. case_bool_decide; [|apply keeps_ret].
  keeps_step; [apply keeps_gets|].
  case_bool_decide; [apply keeps_ret|].
  keeps_step; [apply keeps_appendChild, SpanFacts.createElement_li_has_span|].
  keeps_step; [by apply keeps_modify|].
  keeps_step; [apply keeps_addEventListener|].
  keeps_step; [apply keeps_addEventListener|].
  keeps_step; [by apply keeps_update_element | apply keeps_saveTasks].
Qed.

Lemma keeps_deleteTask (p : element) : keeps (deleteTask p).
Proof.
  unfold deleteTask. keeps_step; [|apply keeps_saveTasks].
  intros s Hs. unfold removeChild, spans in *.
  destruct p; try done. case_decide; [|done]. cbn. by apply Forall_delete.
Qed.

Lemma keeps_toggleComplete (p : element) : keeps (toggleComplete p).
Proof.
  unfold toggleComplete. keeps_step; [|apply keeps_saveTasks].
  apply keeps_update_element, children_classList_toggle.
Qed.

Lemma keeps_taskList_insertBefore (d : nat) (child : option element) :
  keeps (taskList_insertBefore d child).
Proof.
  destruct child as [[t| |]|]; try apply keeps_throw.
  all: apply keeps_modify; intros s Hs; unfold spans in *; cbn.
  all: by apply Forall_insertBefore.
Qed.

Lemma keeps_handleDrop (event : DragEvent) : keeps (handleDrop event).
Proof.
  unfold handleDrop. keeps_step; [by apply keeps_update_element|].
  keeps_step; [by intros s|]. keeps_step; [apply keeps_gets|].
  repeat case_match; try apply keeps_ret.
  all: keeps_step; [|apply keeps_saveTasks].
  - apply keeps_taskList_insertBefore.
  - keeps_step; [apply keeps_gets | apply keeps_taskList_insertBefore].
Qed.

Lemma keeps_click (btn : li → option (list nat)) (handler : element → js unit) (i : nat) :
  (∀ e, keeps (handler e)) → keeps (click btn handler i).
Proof.
  intros Hh. unfold click. keeps_step; [apply keeps_gets|].
  case_match; [apply Hh | apply keeps_ret].
Qed.

Lemma keeps_restore_item (t : json) : keeps (restore_item t).
Proof.
  unfold restore_item, get_property.
  keeps_step; [destruct t; (apply keeps_ret || apply keeps_throw)|].
  keeps_step; [apply keeps_appendChild, SpanFacts.createElement_li_has_span|].
  keeps_step; [destruct t; (apply keeps_ret || apply keeps_throw)|].
  keeps_step.
  { case_match; [|apply keeps_ret].
    apply keeps_update_element, children_classList_add. }
  keeps_step; [apply keeps_addEventListener|].
  keeps_step; [apply keeps_addEventListener|].
  by apply keeps_update_element.
Qed.

Lemma keeps_forEach {A} (l : list A) (f : A → js unit) :
  (∀ a, keeps (f a)) → keeps (forEach l f).
Proof.
  intros Hf. induction l as [|a l IH]; [apply keeps_ret|].
  cbn [forEach]. apply keeps_bind; [apply Hf | by intros _].
Qed.

Lemma keeps_main : keeps main.
Proof.
  unfold main. apply keeps_bind; [|intros _; by apply keeps_modify].
  unfold loadTasks. apply keeps_bind; [apply keeps_gets|]. intros stored.
  destruct (JSON_parse _) as [parsed|]; [|apply keeps_throw].
  destruct (if truthy (Some parsed) then parsed else JArray []);
    try apply keeps_throw.
  apply keeps_forEach, keeps_restore_item.
Qed.

Lemma keeps_dispatch (i : input) : keeps (dispatch i).
Proof.
  destruct i; cbn [dispatch].
  - by apply keeps_modify.
  - apply keeps_addTask.
  - apply keeps_addTask.
  - apply keeps_click, keeps_deleteTask.
  - apply keeps_click, keeps_toggleComplete.
  - apply keeps_update_element, children_classList_add.
  - by apply keeps_update_element.
  - apply keeps_handleDrop.
Qed.

(** On every page the script can reach each item has its span, so the
    sequence of tasks is defined. *)
Lemma reachable_tasks (s : page) :
  reachable s → ∃ ts, tasks_of (taskList_children s) = Some ts.
Proof.
  intros H. apply spans_tasks. induction H as [st|s i _ IH].
  - apply keeps_main. constructor.
  - destruct (listening s || item_click i); [by apply keeps_dispatch|]. by destruct i.
Qed.

(** ** Further properties of the handlers *)

Lemma addTask_appends_witness :
  ∃ s', addTask Enter (set_taskInput_value "  buy milk " empty_page) = (Normal (), s')
    ∧ tasks_of (taskList_children s') = Some [plain "buy milk"]
    ∧ taskInput_value s' = ""
    ∧ persisted s' = Some (serialise [plain "buy milk"]).
Proof.
  destruct (addTask_appends (set_taskInput_value "  buy milk " empty_page) [] "buy milk")
    as (s' & Hrun & _ & Hts & Hin & Hp & _); [reflexivity | reflexivity | done | reflexivity |].
  exists s'. split; [exact Hrun|]. split; [exact Hts|]. split; [exact Hin | exact Hp].
Defined.

Lemma restore_persist_plain_witness :
  ∃ s1 s2,
    saveTasks shopping = (Normal (), s1)
    ∧ reload s1 = (Normal (), s2)
    ∧ tasks_of (taskList_children s2) = Some shopping_tasks.
Proof.
  destruct (restore_persist_plain shopping shopping_tasks)
    as (s1 & s2 & Hsave & Hload & Hts & _).
  - reflexivity.
  - repeat constructor.
  - exists s1, s2. split; [exact Hsave|]. split; [exact Hload | exact Hts].
Defined.

(** *** Add, whatever the text *)

(** X2. Whatever the text, an Enter on input that is not empty after
    trimming appends exactly one item, with an empty class list, to the
    items that were there, and clears the field; if the handler then throws,
    the store is as it was. *)
Theorem addTask_appends_one (s : page) :
  trim (taskInput_value s) ≠ "" →
  ∃ x,
    taskList_children (addTask Enter s).2 = taskList_children s ++ [x]
    ∧ li_classList x = []
    ∧ taskInput_value (addTask Enter s).2 = ""
    ∧ ((addTask Enter s).1 ≠ Normal () → localStorage (addTask Enter s).2 = localStorage s).
Proof.
  intros Hne. unfold addTask, Enter. cbn [key]. rewrite bool_decide_eq_true_2 by done.
  js_unfold. rewrite bool_decide_eq_false_2 by done.
  unfold appendChild, addEventListener, update_element. js_unfold.
  set (x := createElement_li (item_markup (trim (taskInput_value s)))).
  destruct (querySelector (by_class "deleteBtn") x); [|by exists x].
  destruct (querySelector (by_class "completeBtn") x); [|by exists x].
  cbn [taskList_children set_children set_taskInput_value]. rewrite alter_last.
  unfold saveTasks. js_unfold. cbn [taskList_children set_children].
  destruct (tasks_of _); exists (set_draggable true x); by repeat split.
Qed.

Lemma addTask_appends_one_witness :
  ∃ x, taskList_children (addTask Enter (set_taskInput_value "<!--" shopping)).2
       = taskList_children shopping ++ [x]
    ∧ taskInput_value (addTask Enter (set_taskInput_value "<!--" shopping)).2 = "".
Proof.
  destruct (addTask_appends_one (set_taskInput_value "<!--" shopping))
    as (x & Hl & _ & Hin & _); [vm_compute; discriminate|].
  exists x. split; [exact Hl | exact Hin].
Defined.

(** *** What [saveTasks] writes *)

(** X4. Whatever the texts of the tasks (quotes, backslashes and control
    characters included), the value that a [saveTasks] has written is JSON
    text that [JSON.parse] reads back as the array of the tasks, one object
    of [text] and [completed] per task, in display order. *)
Theorem saveTasks_writes_json (s s' : page) :
  saveTasks s = (Normal (), s') →
  ∃ ts v,
    tasks_of (taskList_children s) = Some ts
    ∧ persisted s' = Some v
    ∧ JSON_parse v = Some (JArray (task_json <$> ts))
    ∧ taskList_children s' = taskList_children s
    ∧ taskInput_value s' = taskInput_value s.
Proof.
  intros (ts & Hts & ->)%saveTasks_inv. exists ts, (serialise ts).
  split; [done|]. split; [apply lookup_insert_eq|].
  split; [apply JsonFacts.parse_stringify_tasks | done].
Qed.

Lemma saveTasks_writes_json_witness :
  ∃ v, persisted (saveTasks shopping).2 = Some v
    ∧ JSON_parse v = Some (JArray (task_json <$> shopping_tasks)).
Proof.
  destruct (saveTasks_writes_json shopping (saveTasks shopping).2)
    as (ts & v & Hts & Hv & Hparse & _); [reflexivity|].
  injection Hts as <-. exists v. split; [exact Hv | exact Hparse].
Defined.

(** *** Reorder keeps the tasks *)

Lemma insertBefore_Permutation {A} (d : nat) (child : option nat) (l : list A) :
  insertBefore d child l ≡ₚ l.
Proof.
  unfold insertBefore. destruct (l !! d) as [x|] eqn:Hd; [|done].
  transitivity (x :: delete d l); [|symmetry; by apply delete_Permutation].
  destruct (if bool_decide _ then _ else child) as [r|].
  - rewrite <- Permutation_middle. by rewrite take_drop.
  - by rewrite Permutation_app_comm.
Qed.

Lemma drop_child_item (event : DragEvent) (l : list li) (t : nat) :
  child_index (drop_child event l (Item t)) = Some (drop_reference event (length l) t).
Proof.
  unfold drop_child, drop_reference. destruct (above_midpoint event); [done|].
  cbn [nextElementSibling_of]. unfold nextElementSibling. by case_decide.
Qed.

(** One run of [handleDrop] on a page whose items have their spans: the
    move when both items are found and the reference is a child of the list
    or [null], the refusal of [insertBefore] when it is not, nothing but
    line 193 otherwise. *)
Lemma handleDrop_cases (event : DragEvent) (s : page) (ts : list task) :
  tasks_of (taskList_children s) = Some ts →
  let l1 := after_drag_over (target event) (taskList_children s) in
  handleDrop event s
  = match list_find (λ x, text x = dataTransfer_text event) ts,
          closest_li (taskList_children s) (target event) with
    | Some (d, _), Some t =>
        match child_index (drop_child event l1 t) with
        | Some child =>
            (Normal (), stored (serialise (insertBefore d child ts))
                          (set_children (insertBefore d child l1) s))
        | None => (Throw NotFoundError, set_children l1 s)
        end
    | _, _ => (Normal (), set_children l1 s)
    end.
Proof.
  intros Hts l1.
  assert (tasks_of l1 = Some ts) as Hts1 by (unfold l1; by rewrite after_drag_over_tasks).
  assert (∀ d child,
     saveTasks (set_children (insertBefore d child l1) (set_children l1 s))
     = (Normal (), stored (serialise (insertBefore d child ts))
                     (set_children (insertBefore d child l1) s))) as Hsave.
  { intros d child.
    by rewrite (saveTasks_ok (set_children (insertBefore d child l1) (set_children l1 s))
                  _ (tasks_of_insertBefore _ _ d child Hts1)). }
  unfold handleDrop, findTaskItemByText.
  js_unfold. rewrite drag_over_removed. cbn [taskList_children set_children]. fold l1.
  rewrite (find_from_first _ _ _ 0 Hts1).
  unfold l1 at 1. rewrite closest_li_after_drag_over. fold l1.
  destruct (list_find _ ts) as [[d td]|]; cbn [fmap option_fmap option_map fst];
    destruct (closest_li (taskList_children s) (target event)) as [t|]; try reflexivity.
  cbn [Nat.add]. unfold drop_child. destruct (above_midpoint event).
  - destruct t as [t| |]; cbn [taskList_insertBefore child_index]; [apply Hsave | done..].
  - cbn [taskList_children set_children].
    destruct (nextElementSibling_of l1 t) as [[t'| |]|];
      cbn [taskList_insertBefore child_index]; first [apply Hsave | done].
Qed.

(** X5. On a page whose items have their spans, the sequence that
    [handleDrop] leaves is a rearrangement of the one it found: no task is
    lost, repeated or altered, and the input field is untouched.  The
    handler returns, or [insertBefore] has refused its reference with
    [NotFoundError] (the nearest [li] of the target is then one that the
    text of a task has put inside an item) and neither the sequence nor the
    store has changed.  It returns whenever the nearest [li] of the target
    is an item of the list. *)
Theorem handleDrop_permutes (event : DragEvent) (s : page) (ts : list task) :
  tasks_of (taskList_children s) = Some ts →
  ∃ ts',
    tasks_of (taskList_children (handleDrop event s).2) = Some ts'
    ∧ ts' ≡ₚ ts
    ∧ length ts' = length ts
    ∧ taskInput_value (handleDrop event s).2 = taskInput_value s
    ∧ ((handleDrop event s).1 = Normal ()
       ∨ ((handleDrop event s).1 = Throw NotFoundError
          ∧ ts' = ts
          ∧ localStorage (handleDrop event s).2 = localStorage s
          ∧ ∃ i path, closest_li (taskList_children s) (target event) = Some (Inside i path)))
    ∧ (∀ t, closest_li (taskList_children s) (target event) = Some (Item t) →
         (handleDrop event s).1 = Normal ()).
Proof.
  intros Hts. rewrite (handleDrop_cases event s ts Hts).
  assert (tasks_of (after_drag_over (target event) (taskList_children s)) = Some ts)
    as Hts1 by (by rewrite after_drag_over_tasks).
  assert (∀ e, closest_li (taskList_children s) (target event) = Some e → e ≠ Elsewhere)
    as Hclosest.
  { intros e. unfold closest_li. destruct (target event) as [i|i path|]; [|  |done].
    - case_decide; [by intros [= <-] | done].
    - destruct (taskList_children s !! i) as [x|]; [|done]. cbn.
      destruct (element_at _ _); [|done]. cbn. destruct (closest_at _ _ _); by intros [= <-]. }
  destruct (list_find _ ts) as [[d td]|];
    [destruct (closest_li _ _) as [t|] eqn:Ht|].
  - destruct (child_index _) as [child|] eqn:Hchild.
    + exists (insertBefore d child ts).
      cbn [fst snd taskList_children stored set_localStorage set_children taskInput_value].
      split; [by apply tasks_of_insertBefore|].
      split; [apply insertBefore_Permutation|].
      split; [by rewrite insertBefore_Permutation|]. split; [done|]. by split; [left|].
    + exists ts. cbn [fst snd taskList_children set_children taskInput_value localStorage].
      split; [done|]. split; [done|]. split; [done|]. split; [done|]. split.
      * right. split; [done|]. split; [done|]. split; [done|].
        destruct t as [t|i path|]; [|by eauto|by destruct (Hclosest _ eq_refl)].
        by rewrite drop_child_item in Hchild.
      * intros t' [= ->]. by rewrite drop_child_item in Hchild.
  - exists ts. cbn [fst snd taskList_children set_children taskInput_value].
    split; [done|]. split; [done|]. split; [done|]. split; [done|]. by split; [left|].
  - exists ts. cbn [fst snd taskList_children set_children taskInput_value].
    split; [done|]. split; [done|]. split; [done|]. split; [done|]. by split; [left|].
Qed.

Lemma handleDrop_permutes_witness :
  ∃ ts',
    (handleDrop drop_A_on_C three_items).1 = Normal ()
    ∧ tasks_of (taskList_children (handleDrop drop_A_on_C three_items).2) = Some ts'
    ∧ ts' ≡ₚ [plain "A"; plain "B"; plain "C"].
Proof.
  destruct (handleDrop_permutes drop_A_on_C three_items [plain "A"; plain "B"; plain "C"])
    as (ts' & Hts & Hperm & _ & _ & _ & Hrun); [reflexivity|].
  exists ts'. split; [apply (Hrun 2); reflexivity|]. split; [exact Hts | exact Hperm].
Defined.

(** A drop inside an [li] that lies within an item: [closest] returns that
    [li], which is no child of the list.  Above its middle [insertBefore]
    refuses it; below, its next sibling is [null] and the dragged item goes
    to the end of the list. *)
Lemma handleDrop_inner_li :
  closest_li (taskList_children with_inner_li) (target (drop_on_inner 0))
  = Some (Inside 1 [1; 0])
  ∧ handleDrop (drop_on_inner 0) with_inner_li = (Throw NotFoundError, with_inner_li)
  ∧ fst (handleDrop (drop_on_inner 15) with_inner_li) = Normal ()
  ∧ taskList_children (snd (handleDrop (drop_on_inner 15) with_inner_li))
    = [item_with_li; plain_item "A" []]
  ∧ dispatch (ClickDelete 1) with_inner_li = (Throw NotFoundError, with_inner_li).
Proof. evaluate. Qed.

(** X6. A drop whose text belongs to no task, or whose target lies in no
    item of the list, changes neither the sequence nor the store: nothing is
    moved and nothing is written. *)
Theorem handleDrop_unresolved (event : DragEvent) (s : page) (ts : list task) :
  tasks_of (taskList_children s) = Some ts →
  Forall (λ t, text t ≠ dataTransfer_text event) ts
  ∨ closest_li (taskList_children s) (target event) = None →
  ∃ s',
    handleDrop event s = (Normal (), s')
    ∧ tasks_of (taskList_children s') = Some ts
    ∧ length (taskList_children s') = length (taskList_children s)
    ∧ localStorage s' = localStorage s
    ∧ taskInput_value s' = taskInput_value s.
Proof.
  intros Hts Hun. rewrite (handleDrop_cases event s ts Hts).
  exists (set_children (after_drag_over (target event) (taskList_children s)) s).
  split.
  - destruct Hun as [Hnone | ->].
    + apply (list_find_None (λ x, text x = dataTransfer_text event)) in Hnone.
      by rewrite Hnone.
    + by destruct (list_find _ ts) as [[d td]|].
  - cbn [taskList_children set_children].
    rewrite after_drag_over_tasks, after_drag_over_length. done.
Qed.

Lemma handleDrop_unresolved_witness :
  ∃ s', handleDrop drop_foreign shopping = (Normal (), s')
    ∧ tasks_of (taskList_children s') = Some shopping_tasks
    ∧ localStorage s' = localStorage shopping.
Proof.
  destruct (handleDrop_unresolved drop_foreign shopping shopping_tasks)
    as (s' & Hrun & Hts & _ & Hst & _); [reflexivity | |].
  - left. repeat constructor; discriminate.
  - exists s'. split; [exact Hrun|]. split; [exact Hts | exact Hst].
Defined.

(** *** The highlight of a drag *)

(** X7. The handlers of [dragenter], [dragover] and [dragleave] always
    return and only touch the highlight: the sequence of tasks, the number
    of items, the store and the input field are as before. *)
Theorem drag_highlight_inert (event : DragEvent) (s : page) :
  handleDragOver event s = (Normal (), s)
  ∧ only_highlight s (handleDragEnter event s)
  ∧ only_highlight s (handleDragLeave event s).
Proof.
  split; [done|]. unfold only_highlight, handleDragEnter, handleDragLeave.
  rewrite !update_element_run. cbn [fst snd].
  destruct (target event); try done. cbn [taskList_children set_children].
  rewrite !length_alter. split.
  - split; [done|]. split; [|done].
    apply tasks_of_alter_id. intros x. by apply task_of_add_other.
  - split; [done|]. split; [|done].
    apply tasks_of_alter_id. intros x. by apply task_of_remove_other.
Qed.

Lemma filter_other (c : string) (l : list string) :
  c ∉ l → filter (λ d, d ≠ c) l = l.
Proof.
  induction l as [|d l IH]; [done|]. intros [Hd Hl]%not_elem_of_cons.
  rewrite filter_cons, decide_True by done. f_equal. by apply IH.
Qed.

Lemma classList_remove_add (c : string) (x : li) :
  c ∉ li_classList x → classList_remove c (classList_add c x) = x.
Proof.
  intros Hc. destruct x as [ch cl dr]. cbn in Hc.
  unfold classList_add, classList_contains. cbn [li_classList].
  rewrite bool_decide_eq_false_2 by done.
  unfold classList_remove, set_classList. cbn. f_equal.
  rewrite filter_app, (filter_other _ _ Hc). cbn.
  rewrite decide_False by (intros H; by apply H). apply app_nil_r.
Qed.

(** X8. On a page that shows no highlight, the [dragleave] that follows a
    [dragenter] on the same target gives the page back as it was. *)
Theorem dragleave_undoes_dragenter (event : DragEvent) (s : page) :
  Forall (λ x, "drag-over" ∉ li_classList x) (taskList_children s) →
  handleDragLeave event (handleDragEnter event s).2 = (Normal (), s).
Proof.
  intros Hclean. unfold handleDragLeave, handleDragEnter.
  rewrite !update_element_run. cbn [snd]. f_equal.
  destruct (target event) as [i| |]; try done.
  destruct s as [v l st b]. unfold set_children. cbn in *. f_equal.
  rewrite list_alter_alter_eq. apply list_eq. intros j.
  destruct (decide (i = j)) as [<-|]; [|by rewrite list_lookup_alter_ne].
  rewrite list_lookup_alter_eq. destruct (l !! i) as [x|] eqn:Hx; [|done].
  cbn. f_equal. apply classList_remove_add.
  apply (Forall_lookup_1 _ _ _ _ Hclean Hx).
Qed.

Lemma dragleave_undoes_dragenter_witness :
  li_classList <$> (taskList_children (handleDragEnter enter_first shopping).2 !! 0)
  = Some ["drag-over"]
  ∧ handleDragLeave enter_first (handleDragEnter enter_first shopping).2
    = (Normal (), shopping).
Proof.
  split; [reflexivity|].
  apply (dragleave_undoes_dragenter enter_first shopping).
  apply (bool_decide_unpack _). vm_compute. exact I.
Defined.

(** *** From the start of a drag to the drop *)

Lemma handleDragStart_item (event : DragEvent) (s : page) (ts : list task) (i : nat) (ti : task) :
  tasks_of (taskList_children s) = Some ts →
  target event = Item i → ts !! i = Some ti →
  handleDragStart event s = (Normal (text ti), s).
Proof.
  intros Hts Htarget Hi. unfold handleDragStart, first_span_below. rewrite Htarget.
  unfold mbind at 1, js_bind, gets.
  apply tasks_of_Forall2 in Hts.
  destruct (Forall2_lookup_r _ _ _ _ _ Hts Hi) as (x & -> & Hx).
  cbn. unfold task_of_item in Hx.
  destruct (querySelector (by_tag "span") x) as [span|]; [|done].
  by injection Hx as <-.
Qed.

(** X9. When no two tasks have the same text, the item that a drag starts on
    is the item that the drop moves: [handleDragStart] on the [i]-th item
    yields its text, and [handleDrop] with that text takes the [i]-th task
    out and puts it back next to the target. *)
Theorem drag_moves_the_dragged_item
    (start drop : DragEvent) (s : page) (ts : list task) (i t : nat) (ti : task) :
  tasks_of (taskList_children s) = Some ts →
  NoDup (text <$> ts) →
  target start = Item i → ts !! i = Some ti →
  dataTransfer_text drop = text ti →
  closest_li (taskList_children s) (target drop) = Some (Item t) →
  handleDragStart start s = (Normal (text ti), s)
  ∧ ∃ s', handleDrop drop s = (Normal (), s')
      ∧ tasks_of (taskList_children s')
        = Some (insertBefore i (drop_reference drop (length ts) t) ts)
      ∧ persisted s' = Some (serialise (insertBefore i (drop_reference drop (length ts) t) ts)).
Proof.
  intros Hts Hnodup Hstart Hi Hpayload Ht.
  split; [by eapply handleDragStart_item|].
  rewrite (handleDrop_cases drop s ts Hts), Ht, drop_child_item, after_drag_over_length.
  rewrite <- (tasks_of_length _ _ Hts).
  destruct (list_find (λ x, text x = dataTransfer_text drop) ts) as [[d td]|] eqn:Hfind.
  - destruct (proj1 (list_find_Some _ _ _ _) Hfind) as (Hd & Htd & _).
    assert (d = i) as ->.
    { apply (NoDup_lookup (text <$> ts) d i (text ti)); [done| |].
      - by rewrite list_lookup_fmap, Hd, <- Hpayload, <- Htd.
      - by rewrite list_lookup_fmap, Hi. }
    eexists. split; [reflexivity|]. cbn [taskList_children stored set_localStorage set_children].
    split; [|apply lookup_insert_eq].
    apply tasks_of_insertBefore. by rewrite after_drag_over_tasks.
  - apply list_find_None in Hfind. apply list_elem_of_lookup_2 in Hi.
    rewrite Forall_forall in Hfind. by destruct (Hfind ti Hi).
Qed.

Lemma drag_moves_the_dragged_item_witness :
  handleDragStart {| target := Item 0; clientY := of_Z 0; dataTransfer_text := "";
                     box_top := of_Z 0; box_clientHeight := 0 |} three_items
  = (Normal "A", three_items)
  ∧ ∃ s', handleDrop drop_A_on_C three_items = (Normal (), s')
      ∧ tasks_of (taskList_children s') = Some [plain "B"; plain "C"; plain "A"].
Proof.
  destruct (drag_moves_the_dragged_item
              {| target := Item 0; clientY := of_Z 0; dataTransfer_text := "";
                 box_top := of_Z 0; box_clientHeight := 0 |}
              drop_A_on_C three_items [plain "A"; plain "B"; plain "C"] 0 2 (plain "A"))
    as (Hstart & s' & Hdrop & Hts & _); try reflexivity.
  { apply (bool_decide_unpack _). vm_compute. exact I. }
  split; [exact Hstart|]. exists s'. split; [exact Hdrop | exact Hts].
Defined.

(** *** Delete after add *)

Lemma addTask_plain_run (s : page) (ts : list task) (t : string) :
  tasks_of (taskList_children s) = Some ts →
  trim (taskInput_value s) = t → t ≠ "" → markup_free t = true →
  addTask Enter s
  = (Normal (), stored (serialise (ts ++ [{| text := collapse_ws t; completed := false |}]))
                  (set_children (taskList_children s ++ [plain_item t []])
                     (set_taskInput_value "" s))).
Proof.
  intros Hts Htrim Hne Hfree.
  assert (tasks_of (taskList_children s ++ [plain_item t []])
          = Some (ts ++ [{| text := collapse_ws t; completed := false |}])) as Hnew.
  { apply tasks_of_snoc; [done|]. by rewrite task_of_plain_item. }
  unfold addTask, Enter. cbn [key]. rewrite bool_decide_eq_true_2 by done.
  js_unfold. rewrite Htrim, bool_decide_eq_false_2 by done.
  unfold appendChild, createElement_li, querySelector. cbn [li_children].
  rewrite (parse_item_markup _ Hfree).
  rewrite item_tree_deleteBtn, item_tree_completeBtn.
  unfold addEventListener, update_element. js_unfold.
  cbn [taskList_children set_children set_taskInput_value].
  rewrite alter_last.
  match goal with |- saveTasks ?s0 = _ => by rewrite (saveTasks_ok s0 _ Hnew) end.
Qed.

(** X10. Deleting the task that an add has just appended gives the list back:
    after [addTask] on input without markup and [deleteTask] on the new last
    item, the children of the list are those before the add, the store holds
    the serialisation of the earlier sequence, and two writes were made. *)
Theorem deleteTask_undoes_addTask (s : page) (ts : list task) (t : string) :
  tasks_of (taskList_children s) = Some ts →
  trim (taskInput_value s) = t → t ≠ "" → markup_free t = true →
  ∃ s1 s2,
    addTask Enter s = (Normal (), s1)
    ∧ deleteTask (Item (length ts)) s1 = (Normal (), s2)
    ∧ taskList_children s2 = taskList_children s
    ∧ persisted s2 = Some (serialise ts)
    ∧ writes (localStorage s2) = S (S (writes (localStorage s)))
    ∧ taskInput_value s2 = "".
Proof.
  intros Hts Htrim Hne Hfree. eexists _, _.
  split; [by apply addTask_plain_run|].
  pose proof (tasks_of_length _ _ Hts) as Hlen.
  assert (delete (length ts) (taskList_children s ++ [plain_item t []])
          = taskList_children s) as Hdel.
  { rewrite Hlen, delete_take_drop, take_app_length, drop_app_ge by lia.
    rewrite drop_ge by (cbn; lia). apply app_nil_r. }
  split.
  { unfold deleteTask, removeChild. js_unfold.
    cbn [taskList_children stored set_localStorage set_children set_taskInput_value].
    rewrite decide_True by (rewrite length_app; cbn; lia).
    rewrite Hdel. apply saveTasks_ok. exact Hts. }
  cbn. split; [done|]. split; [apply lookup_insert_eq | done].
Qed.

Lemma deleteTask_undoes_addTask_witness :
  ∃ s1 s2,
    addTask Enter (set_taskInput_value "bread" shopping) = (Normal (), s1)
    ∧ deleteTask (Item 3) s1 = (Normal (), s2)
    ∧ taskList_children s2 = taskList_children shopping
    ∧ persisted s2 = Some (serialise shopping_tasks).
Proof.
  destruct (deleteTask_undoes_addTask (set_taskInput_value "bread" shopping)
              shopping_tasks "bread")
    as (s1 & s2 & Hadd & Hdel & Hl & Hp & _); [reflexivity | reflexivity | done | reflexivity |].
  exists s1, s2. split; [exact Hadd|]. split; [exact Hdel|]. split; [exact Hl | exact Hp].
Defined.

(** *** What the restore leaves alone *)

Lemma extends_refl (s : page) : extends s s.
Proof. repeat split. exists []. by rewrite app_nil_r. Qed.

Lemma extends_trans (s1 s2 s3 : page) : extends s1 s2 → extends s2 s3 → extends s1 s3.
Proof.
  intros (Hst & Hin & l & Hl) (Hst' & Hin' & l' & Hl').
  split; [congruence|]. split; [congruence|].
  exists (l ++ l'). by rewrite Hl', Hl, (assoc_L (++)).
Qed.

Lemma appends_only_bind {A B} (m : js A) (f : A → js B) :
  appends_only m → (∀ a, appends_only (f a)) → appends_only (m ≫= f).
Proof.
  intros Hm Hf s. unfold mbind, js_bind. specialize (Hm s).
  destruct (m s) as [[a|e] s0]; [|done].
  eapply extends_trans; [exact Hm | apply Hf].
Qed.

Lemma preserves_bind (P : page → Prop) {A B} (m : js A) (f : A → js B) :
  preserves P m → (∀ a, preserves P (f a)) → preserves P (m ≫= f).
Proof.
  intros Hm Hf s Hs. unfold mbind, js_bind. specialize (Hm s Hs).
  destruct (m s) as [[a|e] s0]; [|done]. by apply Hf.
Qed.

Lemma preserves_same (P : page → Prop) {A} (m : js A) :
  (∀ s, (m s).2 = s) → preserves P m.
Proof. intros Hm s Hs. by rewrite Hm. Qed.

Lemma get_property_same (o : json) (k : string) (s : page) : (get_property o k s).2 = s.
Proof. by destruct o. Qed.

Lemma addEventListener_same (n : option node) (s : page) : (addEventListener n s).2 = s.
Proof. by destruct n. Qed.

Lemma one_more_update (s0 : page) (f : li → li) :
  preserves (one_more s0) (update_element f (Item (length (taskList_children s0)))).
Proof.
  intros s (Hst & Hin & x & Hx). rewrite update_element_run. cbn [snd].
  split; [done|]. split; [done|]. exists (f x).
  cbn [taskList_children set_children]. by rewrite Hx, alter_last.
Qed.

Lemma restore_item_appends (t : json) : appends_only (restore_item t).
Proof.
  intros s. unfold restore_item.
  unfold mbind at 1. unfold js_bind.
  pose proof (get_property_same t "text" s) as Hsame.
  destruct (get_property t "text" s) as [[task_text|e] s0]; cbn in Hsame; subst s0;
    [|apply extends_refl].
  set (x := createElement_li (item_markup (ToString task_text))).
  unfold mbind at 1. unfold js_bind, appendChild.
  match goal with |- extends s (?k ?s0).2 =>
    assert (preserves (one_more s) k) as Hk;
    [|destruct (Hk s0) as (Hst & Hin & x' & Hx')]
  end.
  - repeat (apply preserves_bind; [|intros ?]).
    + apply preserves_same, get_property_same.
    + case_match; [apply one_more_update | by apply preserves_same].
    + apply preserves_same, addEventListener_same.
    + apply preserves_same, addEventListener_same.
    + apply one_more_update.
  - split; [done|]. split; [done|]. by exists x.
  - split; [done|]. split; [done|]. by exists [x'].
Qed.

Lemma forEach_appends {A} (l : list A) (f : A → js unit) :
  (∀ a, appends_only (f a)) → appends_only (forEach l f).
Proof.
  intros Hf. induction l as [|a l IH]; [intros s; apply extends_refl|].
  cbn [forEach]. apply appends_only_bind; [apply Hf | by intros _].
Qed.

Lemma loadTasks_appends : appends_only loadTasks.
Proof.
  intros s. rewrite loadTasks_unfold.
  destruct (JSON_parse _) as [parsed|]; [|apply extends_refl].
  destruct (if truthy (Some parsed) then parsed else JArray []);
    try apply extends_refl.
  apply forEach_appends, restore_item_appends.
Qed.

(** X11. Whatever the store holds, the restore only adds items at the end of
    the list: it never writes the store, it leaves the input field and the
    items already present as they are, and this holds also when it throws
    part of the way; the same is true of the whole start-up callback. *)
Theorem loadTasks_only_appends (s : page) :
  extends s (loadTasks s).2 ∧ extends s (main s).2.
Proof.
  split; [apply loadTasks_appends|].
  rewrite main_unfold. pose proof (loadTasks_appends s) as H.
  by destruct (loadTasks s) as [[[]|e] s'].
Qed.

(** *** What the handlers write *)

Lemma quiet_bind {A B} (m : js A) (f : A → js B) :
  quiet m → (∀ a, quiet (f a)) → quiet (m ≫= f).
Proof.
  intros Hm Hf s. unfold mbind, js_bind. specialize (Hm s).
  destruct (m s) as [[a|e] s0]; [|done]. cbn in Hm. by rewrite Hf.
Qed.

Lemma once_after_quiet {A B} (m : js A) (f : A → js B) :
  quiet m → (∀ a, writes_at_most_once (f a)) → writes_at_most_once (m ≫= f).
Proof.
  intros Hm Hf s. unfold mbind, js_bind. specialize (Hm s).
  destruct (m s) as [[a|e] s0]; [|by left]. cbn in Hm. rewrite <- Hm. apply Hf.
Qed.

Lemma quiet_once {A} (m : js A) : quiet m → writes_at_most_once m.
Proof. intros Hm s. by left. Qed.

Lemma quiet_update_element (f : li → li) (e : element) : quiet (update_element f e).
Proof. intros s. rewrite update_element_run. by destruct e. Qed.

Lemma quiet_addEventListener (n : option node) : quiet (addEventListener n).
Proof. by destruct n. Qed.

Lemma saveTasks_once : writes_at_most_once saveTasks.
Proof.
  intros s. unfold saveTasks. js_unfold.
  destruct (tasks_of _) as [ts|]; [right; by eexists | by left].
Qed.

Lemma addTask_once (event : Event) : writes_at_most_once (addTask event).
Proof.
  unfold addTask. case_bool_decide; [|by apply quiet_once].
  apply once_after_quiet; [done|]. intros taskText.
  case_bool_decide; [by apply quiet_once|].
  apply once_after_quiet; [done|]. intros i.
  apply once_after_quiet; [done|]. intros _.
  apply once_after_quiet; [apply quiet_addEventListener|]. intros _.
  apply once_after_quiet; [apply quiet_addEventListener|]. intros _.
  apply once_after_quiet; [apply quiet_update_element|]. intros _.
  apply saveTasks_once.
Qed.

Lemma quiet_taskList_insertBefore (d : nat) (child : option element) :
  quiet (taskList_insertBefore d child).
Proof. by destruct child as [[t| |]|]. Qed.

Lemma handleDrop_once (event : DragEvent) : writes_at_most_once (handleDrop event).
Proof.
  unfold handleDrop.
  apply once_after_quiet; [apply quiet_update_element|]. intros _.
  apply once_after_quiet; [done|]. intros dragged.
  apply once_after_quiet; [done|]. intros dropTarget.
  destruct dragged, dropTarget; try by apply quiet_once.
  apply once_after_quiet; [|intros _; apply saveTasks_once].
  destruct (above_midpoint event); [apply quiet_taskList_insertBefore|].
  apply quiet_bind; [done|]. intros sibling. apply quiet_taskList_insertBefore.
Qed.

Lemma deleteTask_once (e : element) : writes_at_most_once (deleteTask e).
Proof.
  apply once_after_quiet; [|intros _; apply saveTasks_once].
  intros s. unfold removeChild. destruct e; try done. by case_decide.
Qed.

Lemma toggleComplete_once (e : element) : writes_at_most_once (toggleComplete e).
Proof.
  apply once_after_quiet; [apply quiet_update_element | intros _; apply saveTasks_once].
Qed.

Lemma click_once (btn : li → option (list nat)) (handler : element → js unit) (i : nat) :
  (∀ e, writes_at_most_once (handler e)) → writes_at_most_once (click btn handler i).
Proof.
  intros Hh. unfold click. apply once_after_quiet; [done|]. intros children.
  case_match; [apply Hh | by apply quiet_once].
Qed.

(** X12. No handler writes the store more than once per event, and what it
    writes it writes under the key [tasks]: after any input the store is the
    one before, or the one before with one [setItem] under [tasks], so the
    other keys of the store are never touched. *)
Theorem handlers_write_at_most_once (i : input) (s : page) :
  localStorage (dispatch i s).2 = localStorage s
  ∨ wrote_once (localStorage s) (localStorage (dispatch i s).2).
Proof.
  revert s. change (writes_at_most_once (dispatch i)).
  destruct i; cbn [dispatch].
  - by apply quiet_once.
  - apply addTask_once.
  - apply addTask_once.
  - apply click_once, deleteTask_once.
  - apply click_once, toggleComplete_once.
  - apply quiet_once, quiet_update_element.
  - apply quiet_once, quiet_update_element.
  - apply handleDrop_once.
Qed.

(** *** Entries of the stored array *)

Lemma forEach_app {A} (l1 l2 : list A) (f : A → js unit) (s : page) :
  forEach (l1 ++ l2) f s
  = match forEach l1 f s with
    | (Normal _, s') => forEach l2 f s'
    | (Throw e, s') => (Throw e, s')
    end.
Proof.
  revert s. induction l1 as [|a l1 IH]; intros s; [done|].
  cbn [app forEach]. unfold mbind, js_bind.
  destruct (f a s) as [[[]|e] s0]; [apply IH | done].
Qed.

(** X13. A [null] among the entries of the stored array stops the restore:
    the tasks before it are restored, in order, the entries after it are
    not, a [TypeError] leaves the start-up callback and the handlers are not
    registered. *)
Theorem loadTasks_null_entry (s : page) (v : string) (ts : list task) (rest : list json) :
  persisted s = Some v →
  JSON_parse v = Some (broken_array ts rest) →
  Forall (λ t, plain_text (text t)) ts →
  main s = (Throw TypeError, set_children (taskList_children s ++ (restored <$> ts)) s)
  ∧ tasks_of (restored <$> ts) = Some ts.
Proof.
  intros Hv Hparse Hplain. split; [|by apply tasks_of_restored].
  rewrite main_unfold, loadTasks_unfold, Hv. cbn [from_option id].
  rewrite Hparse. unfold broken_array. cbn [truthy].
  rewrite forEach_app, (forEach_restore_plain _ _ Hplain).
  cbn [forEach]. unfold mbind, js_bind. reflexivity.
Qed.

Lemma loadTasks_null_entry_witness :
  main with_null_entry = (Throw TypeError, set_children [restored (plain "A")] with_null_entry)
  ∧ listening (main with_null_entry).2 = false.
Proof.
  destruct (loadTasks_null_entry with_null_entry
              ("[" +:+ JSON_stringify (task_json (plain "A")) +:+ ",null]") [plain "A"] [])
    as [Hmain _].
  - reflexivity.
  - vm_compute. reflexivity.
  - repeat constructor.
  - split; [exact Hmain|]. by rewrite Hmain.
Defined.



(** *** What a click can raise *)

Lemma toggleComplete_returns (e : element) (s : page) :
  spans s → ∃ s', toggleComplete e s = (Normal (), s') ∧ in_sync s'.
Proof.
  intros [ts Hts]%spans_tasks. unfold toggleComplete. js_unfold.
  rewrite update_element_run. destruct e as [j| |].
  - pose proof (tasks_of_alter _ _ _ _ j task_of_toggle Hts) as H1.
    eexists. split; [by apply saveTasks_ok | by apply stored_in_sync].
  - eexists. split; [by apply saveTasks_ok | by apply stored_in_sync].
  - eexists. split; [by apply saveTasks_ok | by apply stored_in_sync].
Qed.

Lemma deleteTask_outcomes (e : element) (s : page) :
  spans s →
  (∃ s', deleteTask e s = (Normal (), s') ∧ in_sync s')
  ∨ deleteTask e s = (Throw NotFoundError, s).
Proof.
  intros [ts Hts]%spans_tasks. unfold deleteTask, removeChild. js_unfold.
  destruct e as [j| |]; [|by right..]. case_decide; [|by right]. left.
  pose proof (tasks_of_delete _ _ j Hts) as H1.
  eexists. split; [by apply saveTasks_ok | by apply stored_in_sync].
Qed.

(** X15. On a page whose items all have their span, as every page that the
    script reaches has, no click raises a [TypeError]: [saveTasks] reads the
    whole list and returns; a click on a Complete control returns; a click
    on a Delete control returns, or the control is not a child of its item,
    [removeChild] throws [NotFoundError] and the page is as it was.  After a
    click that returned, the store holds the serialised sequence, unless the
    item had no listener and nothing ran. *)
Theorem click_outcomes (s : page) (i : nat) :
  spans s →
  (∃ ts, saveTasks s = (Normal (), stored (serialise ts) s))
  ∧ (∃ s', dispatch (ClickComplete i) s = (Normal (), s') ∧ (in_sync s' ∨ s' = s))
  ∧ ((∃ s', dispatch (ClickDelete i) s = (Normal (), s') ∧ (in_sync s' ∨ s' = s))
     ∨ dispatch (ClickDelete i) s = (Throw NotFoundError, s)).
Proof.
  intros Hs. split; [|split].
  - destruct (proj1 (spans_tasks s) Hs) as [ts Hts]. exists ts. by apply saveTasks_ok.
  - cbn [dispatch]. unfold click. js_unfold.
    destruct (option_bind _ _ _ _) as [path|]; [|by eauto].
    destruct (toggleComplete_returns (parentElement (Inside i path)) s Hs) as (s' & ? & ?).
    by eauto.
  - cbn [dispatch]. unfold click. js_unfold.
    destruct (option_bind _ _ _ _) as [path|]; [|by eauto].
    destruct (deleteTask_outcomes (parentElement (Inside i path)) s Hs) as [(s' & ? & ?)|?];
      by eauto.
Qed.

Lemma click_outcomes_witness :
  (∃ ts, saveTasks after_span_add = (Normal (), stored (serialise ts) after_span_add))
  ∧ (∃ s', dispatch (ClickComplete 1) after_span_add = (Normal (), s')
           ∧ (in_sync s' ∨ s' = after_span_add)).
Proof.
  destruct (click_outcomes after_span_add 1) as (Hsave & Htoggle & _).
  - apply spans_tasks. vm_compute. eexists. reflexivity.
  - split; [exact Hsave | exact Htoggle].
Defined.

(** *** Toggles and adds in sequence *)

Lemma toggleComplete_run (s : page) (ts : list task) (i : nat) :
  tasks_of (taskList_children s) = Some ts →
  toggleComplete (Item i) s
  = (Normal (), stored (serialise (alter flip i ts))
                  (set_children (alter (classList_toggle "completed") i (taskList_children s)) s)).
Proof.
  intros Hts. pose proof (tasks_of_alter _ _ _ _ i task_of_toggle Hts) as H1.
  unfold toggleComplete, update_element. js_unfold. by apply saveTasks_ok.
Qed.

(** X16. Toggles of two different tasks commute: in either order they leave
    the same page, the same list, the same stored value and the same number
    of writes. *)
Theorem toggleComplete_commute (s : page) (ts : list task) (i j : nat) :
  tasks_of (taskList_children s) = Some ts →
  i ≠ j →
  ∃ s',
    (toggleComplete (Item i) ;; toggleComplete (Item j)) s = (Normal (), s')
    ∧ (toggleComplete (Item j) ;; toggleComplete (Item i)) s = (Normal (), s')
    ∧ tasks_of (taskList_children s') = Some (alter flip j (alter flip i ts)).
Proof.
  intros Hts Hne.
  pose proof (tasks_of_alter _ _ _ _ i task_of_toggle Hts) as Hi.
  pose proof (tasks_of_alter _ _ _ _ j task_of_toggle Hts) as Hj.
  pose proof (tasks_of_alter _ _ _ _ j task_of_toggle Hi) as Hij.
  eexists. split; [|split].
  - unfold mbind, js_bind. rewrite (toggleComplete_run _ _ _ Hts).
    rewrite (toggleComplete_run _ (alter flip i ts)) by exact Hi. reflexivity.
  - unfold mbind, js_bind. rewrite (toggleComplete_run _ _ _ Hts).
    rewrite (toggleComplete_run _ (alter flip j ts)) by exact Hj.
    f_equal. unfold stored, set_localStorage, set_children. cbn.
    rewrite !insert_insert_eq.
    by rewrite (list_alter_alter_ne _ _ _ i j), (list_alter_alter_ne _ _ ts i j).
  - exact Hij.
Qed.

Lemma toggleComplete_commute_witness :
  ∃ s',
    (toggleComplete (Item 0) ;; toggleComplete (Item 2)) shopping = (Normal (), s')
    ∧ (toggleComplete (Item 2) ;; toggleComplete (Item 0)) shopping = (Normal (), s')
    ∧ tasks_of (taskList_children s')
      = Some [{| text := "milk"; completed := true |}; {| text := "eggs"; completed := true |};
              {| text := "tea"; completed := true |}].
Proof.
  destruct (toggleComplete_commute shopping shopping_tasks 0 2)
    as (s' & H1 & H2 & Hts); [reflexivity | lia |].
  exists s'. split; [exact H1|]. split; [exact H2 | exact Hts].
Defined.

(** X17. Tasks are listed in the order in which they were added: two adds of
    text without markup, the second typed after the first has cleared the
    field, leave the earlier sequence followed by the first text and then
    the second, and the store holds that sequence. *)
Theorem addTask_in_order (s : page) (ts : list task) (v1 v2 t1 t2 : string) :
  tasks_of (taskList_children s) = Some ts →
  trim v1 = t1 → t1 ≠ "" → markup_free t1 = true →
  trim v2 = t2 → t2 ≠ "" → markup_free t2 = true →
  ∃ s1 s2,
    addTask Enter (set_taskInput_value v1 s) = (Normal (), s1)
    ∧ taskInput_value s1 = ""
    ∧ addTask Enter (set_taskInput_value v2 s1) = (Normal (), s2)
    ∧ tasks_of (taskList_children s2)
      = Some (ts ++ [plain (collapse_ws t1); plain (collapse_ws t2)])
    ∧ persisted s2 = Some (serialise (ts ++ [plain (collapse_ws t1); plain (collapse_ws t2)])).
Proof.
  intros Hts H1 Hn1 Hf1 H2 Hn2 Hf2.
  assert (tasks_of (taskList_children s ++ [plain_item t1 []])
          = Some (ts ++ [plain (collapse_ws t1)])) as Hts1.
  { apply tasks_of_snoc; [done|]. by rewrite task_of_plain_item. }
  eexists _, _. split; [by apply (addTask_plain_run _ ts t1)|]. split; [done|].
  split.
  - by apply (addTask_plain_run _ (ts ++ [plain (collapse_ws t1)]) t2).
  - cbn [taskList_children stored set_localStorage set_children set_taskInput_value
           localStorage items persisted].
    unfold persisted. cbn. rewrite lookup_insert_eq, <- !(assoc_L (++)). split; [|done].
    change (ts ++ [plain (collapse_ws t1); plain (collapse_ws t2)])
      with (ts ++ [plain (collapse_ws t1)] ++ [plain (collapse_ws t2)]).
    rewrite !(assoc_L (++)).
    apply tasks_of_snoc; [done|]. by rewrite task_of_plain_item.
Qed.

Lemma addTask_in_order_witness :
  ∃ s1 s2,
    addTask Enter (set_taskInput_value "bread" shopping) = (Normal (), s1)
    ∧ addTask Enter (set_taskInput_value " jam " s1) = (Normal (), s2)
    ∧ tasks_of (taskList_children s2) = Some (shopping_tasks ++ [plain "bread"; plain "jam"]).
Proof.
  destruct (addTask_in_order shopping shopping_tasks "bread" " jam " "bread" "jam")
    as (s1 & s2 & H1 & _ & H2 & Hts & _);
    [reflexivity | reflexivity | done | reflexivity | reflexivity | done | reflexivity |].
  exists s1, s2. split; [exact H1|]. split; [exact H2 | exact Hts].
Defined.
